(** * symbol_inject: symbol resolution and streaming injection

    A shallow embedding of the format-agnostic core of the symbol injector
    (the [symbol_inject] package: [OpenFile], [InjectStringSymbol],
    [InjectUint64Symbol], [copyAndInject], [findSymbol], [DumpSymbols]),
    together with the parts of the Go standard library it calls
    ([io.Copy], [io.SectionReader], [ReaderAt.ReadAt], [bytes.Compare],
    [binary.LittleEndian.PutUint64]).

    Conventions.
    - [uint64] and [int64] values are integers of [Z]; every place where the
      Go code can wrap around is written with [u64] / [i64].
    - Go strings and byte slices are [list byte]; symbol and section names
      are [string].
    - A non-nil [*Section] is an address (pointer identity) together with the
      pointee; nothing in the package writes through such a pointer. *)

From Stdlib Require Import ZArith Lia String Bool.
From Stdlib Require Import Strings.Byte.
From stdpp Require Import base list.

Local Open Scope Z_scope.

(** ** Machine integers *)

Definition maxUint64 : Z := 2 ^ 64 - 1.
Definition maxInt64 : Z := 2 ^ 63 - 1.

(** Wrap-around of unsigned 64-bit arithmetic. *)
Definition u64 (z : Z) : Z := z mod 2 ^ 64.

(** Wrap-around of signed 64-bit arithmetic; [i64 x] is also the conversion
    [int64(x)] of a [uint64]. *)
Definition i64 (z : Z) : Z := (z + 2 ^ 63) mod 2 ^ 64 - 2 ^ 63.

Definition len {A} (l : list A) : Z := Z.of_nat (length l).

(** ** Errors *)

(** Errors of the [io] layer: the sentinel values of package [io], the
    rejection of a negative offset by [ReadAt], and failures of a sink. *)
Inductive ioerr : Type :=
| EOF
| ErrUnexpectedEOF
| ErrShortWrite
| ErrInvalidWrite
| ErrNegativeOffset
| ErrSink (code : nat).

(** Values of the Go interface [error] that reach this package. *)
Inductive error : Type :=
| ioError (e : ioerr)
| cantParseError (e : error)
| parseError (msg : string)
| errSymbolNotFound
| errSymbolEnd (addr end_ : Z)
| errValueOverflows (length size : Z)
| errContentsMismatch (existing expected : list byte)
| errNotUint64 (symbol : string) (size : Z).

(** The type assertion [err.(cantParseError)]. *)
Definition asCantParse (err : option error) : option error :=
  match err with
  | Some (cantParseError e) => Some (cantParseError e)
  | _ => None
  end.

(** ** Data model *)

Record pointer (A : Type) : Type := Ptr { address : nat; deref : A }.
Arguments Ptr {A} _ _.
Arguments address {A} _.
Arguments deref {A} _.

Module Sec.
Record t : Type := Make { Name : string; Addr : Z; Offset : Z; Size : Z }.
End Sec.

Module Sym.
Record t : Type :=
  Make { Name : string; Addr : Z; Size : Z; Section : pointer Sec.t }.
End Sym.

(** The byte source behind an [io.ReaderAt]. *)
Definition ReaderAt : Type := list byte.

Record File : Type :=
  mkFile { r : ReaderAt; Symbols : list Sym.t; Sections : list (pointer Sec.t) }.

(** ** findSymbol *)

(** The inner loop of [findSymbol]:
    [for n = i; n < len(file.Symbols); n++], run over the symbols from index
    [n] on ([rest]); [total] is [len(file.Symbols)]. *)
Fixpoint nextSymbol (total : nat) (symbol : Sym.t) (n : nat)
    (rest : list Sym.t) : nat :=
  match rest with
  | [] => n
  | s :: rest' =>
      if negb (address (Sym.Section s) =? address (Sym.Section symbol))%nat
      then total
      else if Sym.Addr s >? Sym.Addr symbol then n
      else nextSymbol total symbol (S n) rest'
  end.

(** The body executed for the first symbol whose name matches; [n] is the
    index left by the inner loop.  [file.Symbols[n]] is read only under
    [n < len(file.Symbols)], where the index is in range. *)
Definition resolveSymbol (file : File) (symbol : Sym.t) (n : nat)
    : Z * Z * option error :=
  let size := Sym.Size symbol in
  let offset := u64 (Sec.Offset (deref (Sym.Section symbol)) + Sym.Addr symbol) in
  if size =? 0 then
    let end_ :=
      if (n <? length (Symbols file))%nat
      then match Symbols file !! n with
           | Some s => Sym.Addr s
           | None => 0
           end
      else Sec.Size (deref (Sym.Section symbol)) in
    if (end_ <=? Sym.Addr symbol) || (end_ >? u64 (Sym.Addr symbol + 4096))
    then (maxUint64, maxUint64, Some (errSymbolEnd (Sym.Addr symbol) end_))
    else (offset, u64 (end_ - Sym.Addr symbol), None)
  else (offset, size, None).

(** The outer loop [for i, symbol := range file.Symbols]. *)
Fixpoint findSymbolFrom (file : File) (symbolName : string) (i : nat)
    (rest : list Sym.t) : Z * Z * option error :=
  match rest with
  | [] => (maxUint64, maxUint64, Some errSymbolNotFound)
  | symbol :: rest' =>
      if String.eqb (Sym.Name symbol) symbolName
      then resolveSymbol file symbol
             (nextSymbol (length (Symbols file)) symbol i rest)
      else findSymbolFrom file symbolName (S i) rest'
  end.

Definition findSymbol (file : File) (symbolName : string)
    : Z * Z * option error :=
  findSymbolFrom file symbolName 0 (Symbols file).

(** ** Byte slices *)

(** The conversion [byte(z)]: the low eight bits. *)
Definition byte_of_Z (z : Z) : byte :=
  match Byte.of_N (Z.to_N (z mod 256)) with
  | Some b => b
  | None => x00
  end.

Definition Z_of_byte (b : byte) : Z := Z.of_N (Byte.to_N b).

(** How a call ends: it returns (with Go's [err], [nil] being [None]) or it
    panics at run time. *)
Inductive completion (E : Type) : Type :=
| Returns (err : option E)
| Panics.
Arguments Returns {E} _.
Arguments Panics {E}.

(** The largest allocation the Go runtime accepts ([maxAlloc]): 2^48 bytes
    on the 64-bit hosts this tool is built for (48 bits of heap address). *)
Definition maxAlloc : Z := 2 ^ 48.

(** [make([]byte, size)] for a [uint64] size: [makeslice] panics ("len out
    of range") when the slice needs more than [maxAlloc] bytes; otherwise
    the slice is zero-filled. *)
Definition make (size : Z) : option (list byte) :=
  if maxAlloc <? size then None else Some (replicate (Z.to_nat size) x00).

(** The builtin [copy(dst, src)]: overwrites the first
    [min(len(dst), len(src))] elements of [dst]. *)
Definition copy (dst src : list byte) : list byte :=
  take (length dst) src ++ drop (length src) dst.

(** [bytes.Compare]: lexicographic order, as -1, 0 or +1. *)
Fixpoint bytes_Compare (a b : list byte) : Z :=
  match a, b with
  | [], [] => 0
  | [], _ :: _ => -1
  | _ :: _, [] => 1
  | x :: a', y :: b' =>
      if Z_of_byte x <? Z_of_byte y then -1
      else if Z_of_byte y <? Z_of_byte x then 1
      else bytes_Compare a' b'
  end.

(** [binary.LittleEndian.PutUint64(b, v)] on a slice of at least 8 bytes. *)
Definition PutUint64 (b : list byte) (v : Z) : list byte :=
  [ byte_of_Z v;
    byte_of_Z (Z.shiftr v 8);
    byte_of_Z (Z.shiftr v 16);
    byte_of_Z (Z.shiftr v 24);
    byte_of_Z (Z.shiftr v 32);
    byte_of_Z (Z.shiftr v 40);
    byte_of_Z (Z.shiftr v 48);
    byte_of_Z (Z.shiftr v 56) ] ++ drop 8 b.

(** The value a little-endian byte sequence denotes. *)
Fixpoint le_value (bs : list byte) : Z :=
  match bs with
  | [] => 0
  | b :: bs' => Z_of_byte b + 256 * le_value bs'
  end.

(** ** Sources and sinks *)

(** [r.ReadAt(p, off)] with [n = len(p) > 0], for a source that holds its
    bytes in memory or in a file: the bytes read and the error.  A negative
    offset is rejected; fewer than [n] bytes come with [io.EOF]. *)
Definition ReadAt (r : ReaderAt) (n : Z) (off : Z) : list byte * option ioerr :=
  if off <? 0 then ([], Some ErrNegativeOffset)
  else
    let data := take (Z.to_nat n) (drop (Z.to_nat off) r) in
    (data, if len data <? n then Some EOF else None).

(** An [io.Writer] that appends to [written].  With [room = Some k] it
    accepts [k] more bytes and then fails with [fault], having taken the
    bytes that still fitted. *)
Record Writer : Type :=
  mkWriter { written : list byte; room : option nat; fault : ioerr }.

Definition Write (w : Writer) (p : list byte) : Writer * Z * option ioerr :=
  match room w with
  | None => (mkWriter (written w ++ p) None (fault w), len p, None)
  | Some k =>
      if (length p <=? k)%nat
      then (mkWriter (written w ++ p) (Some (k - length p)%nat) (fault w),
            len p, None)
      else (mkWriter (written w ++ take k p) (Some 0%nat) (fault w),
            Z.of_nat k, Some (fault w))
  end.

(** [io.SectionReader]. *)
Record SectionReader : Type :=
  mkSectionReader { sr_r : ReaderAt; sr_base : Z; sr_off : Z; sr_limit : Z }.

(** [io.NewSectionReader(r, off, n)].  For [off >= 0], [n >= 0] and
    [off + n] within [int64] the limit is [off + n]. *)
Definition NewSectionReader (r : ReaderAt) (off n : Z) : SectionReader :=
  let remaining :=
    if off <=? i64 (maxInt64 - n) then i64 (n + off) else maxInt64 in
  mkSectionReader r off off remaining.

(** [SectionReader.Read(p)] with [plen = len(p)]: the reader afterwards,
    the bytes read and the error; slicing [p] to a negative length panics. *)
Definition SectionReader_Read (s : SectionReader) (plen : Z)
    : option (SectionReader * list byte * option ioerr) :=
  if sr_limit s <=? sr_off s then Some (s, [], Some EOF)
  else
    let max := i64 (sr_limit s - sr_off s) in
    if (max <? plen) && (max <? 0) then None
    else
      let plen := if max <? plen then max else plen in
      let '(data, err) := ReadAt (sr_r s) plen (sr_off s) in
      Some (mkSectionReader (sr_r s) (sr_base s)
              (i64 (sr_off s + len data)) (sr_limit s),
            data, err).

(** The loop of [io.Copy] (through [io.copyBuffer], with its 32 KiB
    buffer); [fuel] bounds the number of iterations. *)
Fixpoint copyBuffer (fuel : nat) (dst : Writer) (src : SectionReader)
    : Writer * completion ioerr :=
  match fuel with
  | O => (dst, Returns None)
  | S fuel' =>
      match SectionReader_Read src 32768 with
      | None => (dst, Panics)
      | Some (src', data, er) =>
          let nr := len data in
          let '(dst', stop) :=
            if 0 <? nr then
              let '(dst', nw, ew) := Write dst data in
              let '(nw, ew) :=
                if (nw <? 0) || (nr <? nw)
                then (0, match ew with None => Some ErrInvalidWrite | _ => ew end)
                else (nw, ew) in
              match ew with
              | Some e => (dst', Some e)
              | None => if nr =? nw then (dst', None) else (dst', Some ErrShortWrite)
              end
            else (dst, None) in
          match stop with
          | Some e => (dst', Returns (Some e))
          | None =>
              match er with
              | Some EOF => (dst', Returns None)
              | Some e => (dst', Returns (Some e))
              | None => copyBuffer fuel' dst' src'
              end
          end
      end
  end.

(** [io.Copy(dst, src)]: every iteration that does not end the loop advances
    the reader by at least one byte of the source, so one more iteration
    than the source has bytes is enough. *)
Definition io_Copy (dst : Writer) (src : SectionReader)
    : Writer * completion ioerr :=
  copyBuffer (S (length (sr_r src))) dst src.

(** ** copyAndInject *)

Definition copyAndInject (r : ReaderAt) (w : Writer) (offset : Z)
    (buf : list byte) : Writer * completion ioerr :=
  (* Copy the first bytes up to the symbol offset *)
  match io_Copy w (NewSectionReader r 0 (i64 offset)) with
  | (w, Panics) => (w, Panics)
  | (w, Returns err) =>
      (* Write the injected value in the output file *)
      let '(w, err) :=
        match err with
        | None => let '(w', _, e) := Write w buf in (w', e)
        | Some _ => (w, err)
        end in
      (* Write the remainder of the file *)
      let pos := i64 (i64 offset + len buf) in
      let '(w, res) :=
        match err with
        | None => io_Copy w (NewSectionReader r pos (i64 (maxInt64 - pos)))
        | Some _ => (w, Returns err)
        end in
      match res with
      | Panics => (w, Panics)
      | Returns (Some EOF) => (w, Returns (Some ErrUnexpectedEOF))
      | Returns err => (w, Returns err)
      end
  end.

(** ** InjectStringSymbol and InjectUint64Symbol *)

Definition liftIO (c : completion ioerr) : completion error :=
  match c with
  | Returns err => Returns (ioError <$> err)
  | Panics => Panics
  end.

(** The integrity check of [InjectStringSymbol] (the body of
    [if from != ""]): [Some c] when the function ends there with [c],
    [None] when it goes on. *)
Definition checkExisting (file : File) (offset size : Z) (from : list byte)
    : option (completion error) :=
  match make size, make size with
  | Some expected, Some existing =>
      let expected := copy expected from in
      let '(existing, err) := ReadAt (r file) (len existing) (i64 offset) in
      match err with
      | Some e => Some (Returns (Some (ioError e)))
      | None =>
          if negb (bytes_Compare existing expected =? 0)
          then Some (Returns (Some (errContentsMismatch existing expected)))
          else None
      end
  | _, _ => Some Panics
  end.

Definition InjectStringSymbol (file : File) (w : Writer) (symbol : string)
    (value from : list byte) : Writer * completion error :=
  let '(offset, size, err) := findSymbol file symbol in
  match err with
  | Some e => (w, Returns (Some e))
  | None =>
      if len value + 1 >? size
      then (w, Returns (Some (errValueOverflows (len value) size)))
      else
        let checked :=
          match from with
          | [] => None
          | _ :: _ => checkExisting file offset size from
          end in
        match checked with
        | Some c => (w, c)
        | None =>
            match make size with
            | None => (w, Panics)
            | Some buf =>
                let buf := copy buf value in
                let '(w', c) := copyAndInject (r file) w offset buf in
                (w', liftIO c)
            end
        end
  end.

Definition InjectUint64Symbol (file : File) (w : Writer) (symbol : string)
    (value : Z) : Writer * completion error :=
  let '(offset, size, err) := findSymbol file symbol in
  match err with
  | Some e => (w, Returns (Some e))
  | None =>
      if negb (size =? 8)
      then (w, Returns (Some (errNotUint64 symbol size)))
      else
        match make 8 with
        | None => (w, Panics)
        | Some buf =>
            let buf := PutUint64 buf value in
            let '(w', c) := copyAndInject (r file) w offset buf in
            (w', liftIO c)
        end
  end.

(** ** OpenFile and DumpSymbols *)

(** The three format readers and their dump variants are collaborators of
    this package.  A reader is run on the byte source in some state of the
    world, which it may change, and hands back either a [File] or an error;
    a dumper prints the symbols and hands back Go's [err]. *)
Section FormatDispatcher.
Variable World : Type.

Definition Extractor : Type := ReaderAt -> World -> (File + error) * World.
Definition Dumper : Type := ReaderAt -> World -> option error * World.

Variables elfSymbolsFromFile machoSymbolsFromFile peSymbolsFromFile : Extractor.
Variables dumpElfSymbols dumpMachoSymbols dumpPESymbols : Dumper.

(** Go's [err] of a reader's result. *)
Definition errOf (res : File + error) : option error :=
  match res with
  | inl _ => None
  | inr e => Some e
  end.

(** The end of [OpenFile], after the fallback chain. *)
Definition attach (r0 : ReaderAt) (res : File + error) : File + error :=
  match res with
  | inr e => inr e
  | inl file => inl (mkFile r0 (Symbols file) (Sections file))
  end.

Definition OpenFile (r0 : ReaderAt) (st : World) : (File + error) * World :=
  let '(res, st) := elfSymbolsFromFile r0 st in
  match asCantParse (errOf res) with
  | Some elfError =>
      (* Try as a mach-o file *)
      let '(res, st) := machoSymbolsFromFile r0 st in
      match asCantParse (errOf res) with
      | Some _ =>
          (* Try as a windows PE file *)
          let '(res, st) := peSymbolsFromFile r0 st in
          match asCantParse (errOf res) with
          | Some _ =>
              (* Can't parse as elf, macho, or PE, return the elf error *)
              (inr elfError, st)
          | None => (attach r0 res, st)
          end
      | None => (attach r0 res, st)
      end
  | None => (attach r0 res, st)
  end.

Definition DumpSymbols (r0 : ReaderAt) (st : World) : option error * World :=
  let '(err, st) := dumpElfSymbols r0 st in
  match asCantParse err with
  | Some elfError =>
      (* Try as a mach-o file *)
      let '(err, st) := dumpMachoSymbols r0 st in
      match asCantParse err with
      | Some _ =>
          (* Try as a windows PE file *)
          let '(err, st) := dumpPESymbols r0 st in
          match asCantParse err with
          | Some _ =>
              (* Can't parse as elf, macho, or PE, return the elf error *)
              (Some elfError, st)
          | None => (err, st)
          end
      | None => (err, st)
      end
  | None => (err, st)
  end.
End FormatDispatcher.


(** ** The resolver as the specification words it *)

Definition sameSection (a b : Sym.t) : bool :=
  (address (Sym.Section a) =? address (Sym.Section b))%nat.

(** The inferred end address of [matched], read off the symbols that come
    after it: the scan stops at the first later symbol of another section
    (no bound found) or at the first later symbol of the same section with a
    strictly greater address (its address is the bound); without a bound the
    end is the size of the enclosing section. *)
Fixpoint endAddress (matched : Sym.t) (later : list Sym.t) : Z :=
  match later with
  | [] => Sec.Size (deref (Sym.Section matched))
  | s2 :: later' =>
      if negb (sameSection s2 matched)
      then Sec.Size (deref (Sym.Section matched))
      else if Sym.Addr matched <? Sym.Addr s2 then Sym.Addr s2
      else endAddress matched later'
  end.

(** [symbols !! i] is the first symbol named [name]. *)
Definition firstNamed (symbols : list Sym.t) (name : string) (i : nat)
    (matched : Sym.t) : Prop :=
  symbols !! i = Some matched /\
  Sym.Name matched = name /\
  forall (j : nat) (s : Sym.t),
    (j < i)%nat -> symbols !! j = Some s -> Sym.Name s <> name.

(** The file range of the section that encloses [s]. *)
Definition inSectionRange (s : Sym.t) (offset size : Z) : Prop :=
  let sec := deref (Sym.Section s) in
  Sec.Offset sec <= offset /\
  offset + size <= Sec.Offset sec + Sec.Size sec.

(** Section pointers with the same address point to the same section (as
    pointers do). *)
Definition coherentSections (file : File) : Prop :=
  forall s1 s2 : Sym.t,
    s1 ∈ Symbols file -> s2 ∈ Symbols file ->
    address (Sym.Section s1) = address (Sym.Section s2) ->
    deref (Sym.Section s1) = deref (Sym.Section s2).

(** What a reader records lies within the sections: every symbol's address
    plus recorded size is at most the size of its section (fields being
    unsigned), and the file range of the section fits in 64 bits. *)
Definition symbolsWithinSections (file : File) : Prop :=
  forall s : Sym.t,
    s ∈ Symbols file ->
    let sec := deref (Sym.Section s) in
    0 <= Sym.Addr s /\ 0 <= Sym.Size s /\
    Sym.Addr s + Sym.Size s <= Sec.Size sec /\
    0 <= Sec.Offset sec /\ Sec.Offset sec + Sec.Size sec < 2 ^ 64.

(** ** The patcher as the specification words it *)

#[global] Instance byte_eq_decision : EqDecision byte := Byte.byte_eq_dec.

(** Bytes [[off, limit)] of the source, as far as the source has them. *)
Definition window (r0 : ReaderAt) (off limit : Z) : list byte :=
  take (Z.to_nat (limit - off)) (drop (Z.to_nat off) r0).

(** One [Write] of a whole slice: the sink afterwards and the error. *)
Definition WriteAll (w : Writer) (p : list byte) : Writer * option ioerr :=
  let '(w', _, e) := Write w p in (w', e).

(** The [size]-byte representation of a string: its bytes, cut at [size],
    followed by zero bytes up to [size]. *)
Definition padded (size : Z) (s : list byte) : list byte :=
  take (Z.to_nat size) s ++ replicate (Z.to_nat size - length s) x00.

(** The last step of [copyAndInject]. *)
Definition unexpectedEOF (err : option ioerr) : option ioerr :=
  match err with
  | Some EOF => Some ErrUnexpectedEOF
  | _ => err
  end.

(** The output a patch is meant to produce: the source with the bytes from
    [offset] on replaced by [buf]. *)
Definition patched (r0 : ReaderAt) (offset : Z) (buf : list byte) : list byte :=
  take (Z.to_nat offset) r0 ++ buf ++ drop (Z.to_nat offset + length buf) r0.

(** The [n] low bytes of [v], least significant first. *)
Fixpoint le_bytes (n : nat) (v : Z) : list byte :=
  match n with
  | O => []
  | S n' => byte_of_Z v :: le_bytes n' (v / 256)
  end.

(** ** Sample inputs *)

Definition bytesOf (s : string) : list byte := list_byte_of_string s.

Definition dataSection : pointer Sec.t :=
  Ptr 0 (Sec.Make ".data" 4096 8 48).

Definition rodataSection : pointer Sec.t :=
  Ptr 1 (Sec.Make ".rodata" 8192 56 16).

(** Five symbols in reader order; [alpha] occurs twice, [alpha], [gamma]
    and [delta] have no recorded size. *)
Definition sampleSymbols : list Sym.t :=
  [ Sym.Make "alpha" 0 0 dataSection;
    Sym.Make "beta" 10 8 dataSection;
    Sym.Make "gamma" 4 0 rodataSection;
    Sym.Make "alpha" 32 4 dataSection;
    Sym.Make "delta" 40 0 dataSection ].

(** A source of 72 bytes: 8 header bytes, 48 bytes of [.data], 16 bytes of
    [.rodata]. *)
Definition sampleSource : ReaderAt :=
  bytesOf "HEADER--0123456789ABCDEFGHIJKLMNOPQRSTUVWXYZabcdefghijklrodata-contents."%string.

Definition sampleFile : File :=
  mkFile sampleSource sampleSymbols [dataSection; rodataSection].

(** A sink without a limit, and one that fails after [k] more bytes. *)
Definition emptySink : Writer := mkWriter [] None ErrShortWrite.

Definition smallSink (k : nat) : Writer := mkWriter [] (Some k) (ErrSink 28).

(** Two symbols at the very top of the 64-bit address range, 50 bytes
    apart, in one section. *)
Definition highSection : pointer Sec.t :=
  Ptr 0 (Sec.Make ".bss" 0 64 (2 ^ 64 - 1)).

Definition highFile : File :=
  mkFile sampleSource
    [ Sym.Make "first" (2 ^ 64 - 100) 0 highSection;
      Sym.Make "second" (2 ^ 64 - 50) 0 highSection ]
    [highSection].

(** A symbol whose recorded size (100) is larger than its section (10). *)
Definition tinySection : pointer Sec.t :=
  Ptr 0 (Sec.Make ".tiny" 0 16 10).

Definition oversizedFile : File :=
  mkFile sampleSource [ Sym.Make "big" 0 100 tinySection ] [tinySection].

(** The sample file cut off after 20 bytes: the whole of [.rodata] and most
    of [.data] are missing from the source. *)
Definition truncatedFile : File :=
  mkFile (take 20 sampleSource) sampleSymbols [dataSection; rodataSection].

(** Readers that answer with a fixed result and record their name in the
    world, which is the list of the readers run so far. *)
Definition loggedReader (tag : string) (res : File + error)
    : Extractor (list string) :=
  fun _ st => (res, st ++ [tag]).

Definition loggedDumper (tag : string) (err : option error)
    : Dumper (list string) :=
  fun _ st => (err, st ++ [tag]).

Definition notElf : error := cantParseError (parseError "bad ELF magic").
Definition notMachO : error := cantParseError (parseError "bad Mach-O magic").
Definition notPE : error := cantParseError (parseError "bad PE magic").
Definition corrupt : error := parseError "section table truncated".

(** What a reader hands back before [OpenFile] attaches the source. *)
Definition parsedFile : File :=
  mkFile [] sampleSymbols [dataSection; rodataSection].

(** ** Further definitions *)

(** The file read back from an output: same symbols and sections, the new
    bytes as its source (what [OpenFile] gives for the patched binary when
    the reader finds the same symbol table). *)
Definition reopened (file : File) (out : ReaderAt) : File :=
  mkFile out (Symbols file) (Sections file).

(** Every symbol of the file has an address and a size that are not
    negative, as [uint64] fields are. *)
Definition unsignedSymbols (file : File) : Prop :=
  forall s, s ∈ Symbols file -> 0 <= Sym.Addr s /\ 0 <= Sym.Size s.

(** Readers and dumpers that belong together: the dumper fails exactly as
    the reader does, and leaves the same world. *)
Definition mirrors {World : Type} (dump : Dumper World)
    (extract : Extractor World) : Prop :=
  forall (r0 : ReaderAt) (st : World),
    dump r0 st = (errOf (fst (extract r0 st)), snd (extract r0 st)).

(** The sample file after ["v2"] has been injected into [delta]. *)
Definition stampedFile : File :=
  reopened sampleFile (patched sampleSource 48 (padded 8 (bytesOf "v2"))).

(** ** Module names of LLNDK stubs *)

Definition llndkLibrarySuffix : string := ".llndk".

(** The [Name] method of [llndkStubDecorator]. *)
Definition llndkStubDecorator_Name (name : string) : string :=
  String.append name llndkLibrarySuffix.

(** [strings.HasSuffix] and [strings.TrimSuffix]. *)
Definition strings_HasSuffix (s suffix : string) : bool :=
  (String.length suffix <=? String.length s)%nat &&
  String.eqb
    (substring (String.length s - String.length suffix)
       (String.length suffix) s)
    suffix.

Definition strings_TrimSuffix (s suffix : string) : string :=
  if strings_HasSuffix s suffix
  then substring 0 (String.length s - String.length suffix) s
  else s.

(** The library name [linkerFlags] stores in [libName] for a module called
    [moduleName]. *)
Definition llndkLibName (moduleName : string) : string :=
  strings_TrimSuffix moduleName llndkLibrarySuffix.

(** ** Machine integers: basic facts *)

Lemma u64_small (z : Z) : 0 <= z < 2 ^ 64 -> u64 z = z.
Proof. intros H. unfold u64. apply Z.mod_small. exact H. Qed.

Lemma u64_range (z : Z) : 0 <= u64 z < 2 ^ 64.
Proof. unfold u64. apply Z.mod_pos_bound. lia. Qed.

Lemma u64_le (z : Z) : 0 <= z -> u64 z <= z.
Proof. intros H. unfold u64. apply Z.mod_le; lia. Qed.

Lemma i64_small (z : Z) : - 2 ^ 63 <= z < 2 ^ 63 -> i64 z = z.
Proof.
  intros H. unfold i64. rewrite Z.mod_small; lia.
Qed.

Lemma len_nonneg {A} (l : list A) : 0 <= len l.
Proof. unfold len. lia. Qed.

Lemma len_app {A} (l k : list A) : len (l ++ k) = len l + len k.
Proof. unfold len. rewrite length_app. lia. Qed.

(** ** findSymbol: the two loops *)

Lemma nextSymbol_self (total : nat) (m : Sym.t) (i : nat) (post : list Sym.t) :
  nextSymbol total m i (m :: post) = nextSymbol total m (S i) post.
Proof.
  simpl. rewrite Nat.eqb_refl. simpl.
  replace (Sym.Addr m >? Sym.Addr m) with false; [reflexivity|].
  symmetry. rewrite Z.gtb_ltb. apply Z.ltb_irrefl.
Qed.

(** The index left by the inner loop is either a valid index of a symbol of
    the same section with a greater address, or the length of the list. *)
Lemma nextSymbol_end (file : File) (m : Sym.t) :
  forall (post pre : list Sym.t),
    Symbols file = pre ++ post ->
    let n := nextSymbol (length (Symbols file)) m (length pre) post in
    (if (n <? length (Symbols file))%nat
     then match Symbols file !! n with
          | Some s => Sym.Addr s
          | None => 0
          end
     else Sec.Size (deref (Sym.Section m)))
    = endAddress m post.
Proof.
  induction post as [|s post IH]; intros pre Hsplit; simpl.
  - rewrite Hsplit, app_nil_r.
    replace (length pre <? length pre)%nat with false; [reflexivity|].
    symmetry. apply Nat.ltb_irrefl.
  - unfold sameSection.
    destruct (address (Sym.Section s) =? address (Sym.Section m))%nat; simpl.
    + rewrite Z.gtb_ltb.
      destruct (Sym.Addr m <? Sym.Addr s) eqn:Hgt.
      * assert (Hlt : (length pre <? length (Symbols file))%nat = true).
        { apply Nat.ltb_lt. rewrite Hsplit, length_app. simpl. lia. }
        rewrite Hlt, Hsplit.
        rewrite lookup_app_r by lia.
        rewrite Nat.sub_diag. reflexivity.
      * specialize (IH (pre ++ [s])).
        rewrite length_app in IH. simpl in IH.
        rewrite Nat.add_1_r in IH. apply IH.
        rewrite Hsplit, <- app_assoc. reflexivity.
    + replace (length (Symbols file) <? length (Symbols file))%nat with false;
        [reflexivity|].
      symmetry. apply Nat.ltb_irrefl.
Qed.

Lemma findSymbolFrom_skip (file : File) (name : string) :
  forall (mid : list Sym.t) (i : nat) (rest : list Sym.t),
    (forall s, s ∈ mid -> Sym.Name s <> name) ->
    findSymbolFrom file name i (mid ++ rest)
    = findSymbolFrom file name (i + length mid) rest.
Proof.
  induction mid as [|s mid IH]; intros i rest Hmid; simpl.
  - rewrite Nat.add_0_r. reflexivity.
  - assert (Hs : String.eqb (Sym.Name s) name = false).
    { apply String.eqb_neq. apply Hmid. left. }
    rewrite Hs, IH.
    + f_equal. lia.
    + intros s' Hin. apply Hmid. right. exact Hin.
Qed.

(** Splitting the symbol list at the first symbol with the given name. *)
Lemma firstNamed_split (symbols : list Sym.t) (name : string) (i : nat)
    (m : Sym.t) :
  firstNamed symbols name i m ->
  symbols = take i symbols ++ m :: drop (S i) symbols /\
  length (take i symbols) = i /\
  (forall s, s ∈ take i symbols -> Sym.Name s <> name).
Proof.
  intros (Hi & Hname & Hmin).
  split; [|split].
  - rewrite <- (take_drop_middle _ _ _ Hi) at 1. reflexivity.
  - apply length_take_le. apply lookup_lt_Some in Hi. lia.
  - intros s Hin. apply list_elem_of_lookup in Hin as [j Hj].
    pose proof (lookup_lt_Some _ _ _ Hj) as Hlt.
    rewrite length_take in Hlt.
    rewrite lookup_take_lt in Hj by lia.
    apply (Hmin j s); [lia | exact Hj].
Qed.

(** [findSymbol] runs the body of the loop on the first symbol with the
    requested name, with the end address the specification describes. *)
Lemma findSymbol_runs_body (file : File) (name : string) (i : nat) (m : Sym.t) :
  firstNamed (Symbols file) name i m ->
  findSymbol file name
  = resolveSymbol file m
      (nextSymbol (length (Symbols file)) m (S i) (drop (S i) (Symbols file))).
Proof.
  intros Hfirst.
  destruct (firstNamed_split _ _ _ _ Hfirst) as (Hsplit & Hlen & Hpre).
  destruct Hfirst as (_ & Hname & _).
  unfold findSymbol. rewrite Hsplit at 1.
  rewrite findSymbolFrom_skip by exact Hpre.
  rewrite Hlen. cbn [findSymbolFrom Nat.add].
  assert (Heq : String.eqb (Sym.Name m) name = true) by (apply String.eqb_eq; exact Hname).
  rewrite Heq, nextSymbol_self. reflexivity.
Qed.

Lemma findSymbol_absent (file : File) (name : string) :
  (forall s, s ∈ Symbols file -> Sym.Name s <> name) ->
  findSymbol file name = (maxUint64, maxUint64, Some errSymbolNotFound).
Proof.
  intros Habs. unfold findSymbol.
  rewrite <- (app_nil_r (Symbols file)) at 1.
  rewrite findSymbolFrom_skip by exact Habs. reflexivity.
Qed.

Lemma resolveSymbol_not_notfound (file : File) (m : Sym.t) (n : nat) :
  snd (resolveSymbol file m n) <> Some errSymbolNotFound.
Proof.
  unfold resolveSymbol.
  destruct (Sym.Size m =? 0); [|simpl; discriminate].
  match goal with |- context [if ?c then _ else _] => destruct c end;
    simpl; discriminate.
Qed.

(** A list with a symbol of the given name has a first one. *)
Lemma firstNamed_exists (symbols : list Sym.t) (name : string) :
  (exists s, s ∈ symbols /\ Sym.Name s = name) ->
  exists i m, firstNamed symbols name i m.
Proof.
  induction symbols as [|s symbols IH]; intros (s0 & Hin & Hname).
  - inversion Hin.
  - destruct (String.eqb (Sym.Name s) name) eqn:Hs.
    + exists 0%nat, s. split; [reflexivity|]. split.
      * apply String.eqb_eq. exact Hs.
      * intros j s' Hj. lia.
    + apply String.eqb_neq in Hs.
      destruct IH as (i & m & Hi & Hm & Hmin).
      { exists s0. split; [|exact Hname].
        inversion Hin; subst; [contradiction | assumption]. }
      exists (S i), m. split; [exact Hi|]. split; [exact Hm|].
      intros [|j] s' Hj Hlook.
      * simpl in Hlook. injection Hlook as <-. exact Hs.
      * simpl in Hlook. apply (Hmin j s'); [lia | exact Hlook].
Qed.

(** ** findSymbol: lookup, size inference and offset *)

Lemma resolveSymbol_end (file : File) (i : nat) (m : Sym.t) :
  Symbols file !! i = Some m ->
  let n := nextSymbol (length (Symbols file)) m (S i) (drop (S i) (Symbols file)) in
  (if (n <? length (Symbols file))%nat
   then match Symbols file !! n with
        | Some s => Sym.Addr s
        | None => 0
        end
   else Sec.Size (deref (Sym.Section m)))
  = endAddress m (drop (S i) (Symbols file)).
Proof.
  intros Hi.
  pose proof (nextSymbol_end file m (drop (S i) (Symbols file))
                (take (S i) (Symbols file))) as H.
  rewrite length_take_le in H.
  - apply H. symmetry. apply take_drop.
  - apply lookup_lt_Some in Hi. lia.
Qed.

(** What [findSymbol] returns for the first symbol named [name], in terms of
    the end address [endAddress] reads off the later symbols. *)
Lemma findSymbol_resolved (file : File) (name : string) (i : nat) (m : Sym.t) :
  firstNamed (Symbols file) name i m ->
  let offset := u64 (Sec.Offset (deref (Sym.Section m)) + Sym.Addr m) in
  let end_ := endAddress m (drop (S i) (Symbols file)) in
  findSymbol file name
  = if Sym.Size m =? 0 then
      if (end_ <=? Sym.Addr m) || (end_ >? u64 (Sym.Addr m + 4096))
      then (maxUint64, maxUint64, Some (errSymbolEnd (Sym.Addr m) end_))
      else (offset, u64 (end_ - Sym.Addr m), None)
    else (offset, Sym.Size m, None).
Proof.
  intros Hfirst. rewrite (findSymbol_runs_body _ _ _ _ Hfirst).
  destruct Hfirst as (Hi & _ & _).
  unfold resolveSymbol. rewrite (resolveSymbol_end _ _ _ Hi). reflexivity.
Qed.

(** Size inference when [matched.address + 4096] fits in 64 bits. *)
Lemma findSymbol_inferred_size (file : File) (name : string) (i : nat)
    (m : Sym.t) :
  firstNamed (Symbols file) name i m ->
  Sym.Size m = 0 ->
  0 <= Sym.Addr m ->
  Sym.Addr m + 4096 < 2 ^ 64 ->
  let end_ := endAddress m (drop (S i) (Symbols file)) in
  (end_ <= Sym.Addr m \/ end_ - Sym.Addr m > 4096 ->
   findSymbol file name
   = (maxUint64, maxUint64, Some (errSymbolEnd (Sym.Addr m) end_))) /\
  (~ (end_ <= Sym.Addr m \/ end_ - Sym.Addr m > 4096) ->
   findSymbol file name
   = (u64 (Sec.Offset (deref (Sym.Section m)) + Sym.Addr m),
      end_ - Sym.Addr m, None)).
Proof.
  intros Hfirst Hsize Hpos Hfit end_.
  rewrite (findSymbol_resolved _ _ _ _ Hfirst). fold end_.
  rewrite Hsize. simpl.
  rewrite (u64_small (Sym.Addr m + 4096)) by lia.
  split; intros Hc.
  - replace ((end_ <=? Sym.Addr m) || (end_ >? Sym.Addr m + 4096)) with true;
      [reflexivity|].
    symmetry. apply orb_true_iff. rewrite Z.leb_le, Z.gtb_ltb, Z.ltb_lt. lia.
  - replace ((end_ <=? Sym.Addr m) || (end_ >? Sym.Addr m + 4096)) with false.
    + rewrite (u64_small (end_ - Sym.Addr m)) by lia. reflexivity.
    + symmetry. apply orb_false_iff.
      rewrite Z.leb_gt, Z.gtb_ltb, Z.ltb_ge. lia.
Qed.

(** A matched symbol without a recorded size whose address is within 4096
    bytes of 2^64 never resolves: the sum [symbol.Addr+4096] wraps around, and
    every end address above the symbol is above the wrapped sum. *)
Lemma findSymbol_high_address (file : File) (name : string) (i : nat)
    (m : Sym.t) :
  firstNamed (Symbols file) name i m ->
  Sym.Size m = 0 ->
  2 ^ 64 - 4096 <= Sym.Addr m < 2 ^ 64 ->
  findSymbol file name
  = (maxUint64, maxUint64,
     Some (errSymbolEnd (Sym.Addr m) (endAddress m (drop (S i) (Symbols file))))).
Proof.
  intros Hfirst Hsize Hhigh.
  rewrite (findSymbol_resolved _ _ _ _ Hfirst), Hsize. simpl.
  set (end_ := endAddress m (drop (S i) (Symbols file))).
  assert (Hwrap : u64 (Sym.Addr m + 4096) = Sym.Addr m + 4096 - 2 ^ 64).
  { unfold u64. symmetry. apply (Z.mod_unique _ _ 1); [left; lia | lia]. }
  rewrite Hwrap.
  replace ((end_ <=? Sym.Addr m) || (end_ >? Sym.Addr m + 4096 - 2 ^ 64))
    with true; [reflexivity|].
  symmetry. apply orb_true_iff. rewrite Z.leb_le, Z.gtb_ltb, Z.ltb_lt. lia.
Qed.

(** C1 (evaluation of the code where the claim fails).  In [highFile] the
    symbol [first] has no recorded size and sits 100 bytes below 2^64; the next
    symbol of its section is 50 bytes later.  The inferred end address is that
    symbol's address, it is above the matched address and the span is 50
    bytes, yet [findSymbol] fails: [symbol.Addr+4096] has wrapped around to
    3996 and every end address is above it. *)
Theorem findSymbol_bound_wraps :
  let first := Sym.Make "first" (2 ^ 64 - 100) 0 highSection in
  let end_ := endAddress first (drop 1 (Symbols highFile)) in
  firstNamed (Symbols highFile) "first" 0 first /\
  end_ = 2 ^ 64 - 50 /\
  ~ (end_ <= Sym.Addr first \/ end_ - Sym.Addr first > 4096) /\
  u64 (Sym.Addr first + 4096) = 3996 /\
  findSymbol highFile "first"
  = (maxUint64, maxUint64, Some (errSymbolEnd (2 ^ 64 - 100) (2 ^ 64 - 50))).
Proof.
  cbv zeta. split; [|split; [|split; [|split]]].
  - split; [reflexivity|]. split; [reflexivity|]. intros j s Hj. lia.
  - reflexivity.
  - intros [H | H]; vm_compute in H; [apply H; reflexivity | discriminate H].
  - reflexivity.
  - vm_compute. reflexivity.
Qed.

(** A section-bound fallback always yields a range that ends with the
    section. *)
Lemma endAddress_cases (m : Sym.t) (later : list Sym.t) :
  endAddress m later = Sec.Size (deref (Sym.Section m)) \/
  exists s2, s2 ∈ later /\ sameSection s2 m = true /\
             Sym.Addr m < Sym.Addr s2 /\ endAddress m later = Sym.Addr s2.
Proof.
  induction later as [|s later IH]; simpl.
  - left. reflexivity.
  - destruct (sameSection s m) eqn:Hsame; simpl.
    + destruct (Sym.Addr m <? Sym.Addr s) eqn:Hlt.
      * right. exists s. split; [left|]. split; [exact Hsame|].
        split; [apply Z.ltb_lt; exact Hlt | reflexivity].
      * destruct IH as [IH | (s2 & Hin & Hs & Ha & He)]; [left; exact IH|].
        right. exists s2. split; [right; exact Hin|]. auto.
    + left. reflexivity.
Qed.

Lemma elem_of_drop_list (n : nat) (l : list Sym.t) (s : Sym.t) :
  s ∈ drop n l -> s ∈ l.
Proof.
  intros Hin. apply list_elem_of_lookup in Hin as [j Hj].
  rewrite lookup_drop in Hj.
  apply list_elem_of_lookup. exists (n + j)%nat. exact Hj.
Qed.

(** In a file whose recorded symbols lie within their sections, the end
    address inferred for a symbol is within its section too: it is the
    section's size, or the address of a later symbol of the same section. *)
Lemma endAddress_within (file : File) (i : nat) (m : Sym.t) :
  coherentSections file -> symbolsWithinSections file ->
  Symbols file !! i = Some m ->
  endAddress m (drop (S i) (Symbols file)) <= Sec.Size (deref (Sym.Section m)).
Proof.
  intros Hcoh Hwf Hi.
  assert (Hm : m ∈ Symbols file).
  { apply list_elem_of_lookup. exists i. exact Hi. }
  destruct (endAddress_cases m (drop (S i) (Symbols file)))
    as [-> | (s2 & Hin & Hsame & _ & ->)]; [lia|].
  apply elem_of_drop_list in Hin.
  unfold sameSection in Hsame. apply Nat.eqb_eq in Hsame.
  rewrite <- (Hcoh s2 m Hin Hm Hsame).
  destruct (Hwf s2 Hin) as (Ha & Hs & Hext & _). lia.
Qed.

(** C2 (as amended).  For every successful resolution the returned offset is
    the matched symbol's section file offset plus the symbol's address,
    reduced modulo 2^64.  In a file whose recorded symbols lie within their
    sections (for every symbol, address plus recorded size is at most the
    size of its section, and the section's file range fits in 64 bits), the
    offset is the exact sum and the resolved byte range [[offset,
    offset+size)] lies within the file range of the section -- for a recorded
    size, for a size inferred from the next symbol and for a size inferred
    from the section bound, where the range ends with the section.  The
    resolver itself checks none of this. *)
Theorem findSymbol_offset (file : File) (name : string) (i : nat) (m : Sym.t)
    (offset size : Z) :
  firstNamed (Symbols file) name i m ->
  findSymbol file name = (offset, size, None) ->
  let sec := deref (Sym.Section m) in
  offset = u64 (Sec.Offset sec + Sym.Addr m) /\
  (coherentSections file -> symbolsWithinSections file ->
   offset = Sec.Offset sec + Sym.Addr m /\
   inSectionRange m offset size /\
   (Sym.Size m = 0 ->
    endAddress m (drop (S i) (Symbols file)) = Sec.Size sec ->
    offset + size = Sec.Offset sec + Sec.Size sec)).
Proof.
  intros Hfirst Hres sec.
  pose proof Hfirst as (Hi & _ & _).
  rewrite (findSymbol_resolved _ _ _ _ Hfirst) in Hres.
  set (end_ := endAddress m (drop (S i) (Symbols file))) in *.
  assert (Hoff : offset = u64 (Sec.Offset sec + Sym.Addr m)).
  { destruct (Sym.Size m =? 0).
    - match type of Hres with
      | (if ?c then _ else _) = _ => destruct c; [discriminate|]
      end.
      injection Hres as <- _. reflexivity.
    - injection Hres as <- _. reflexivity. }
  split; [exact Hoff|].
  intros Hcoh Hwf.
  assert (Hm : m ∈ Symbols file).
  { apply list_elem_of_lookup. exists i. exact Hi. }
  destruct (Hwf m Hm) as (HA & HS & Hext & HO & Hfit). fold sec in Hext, HO, Hfit.
  pose proof (endAddress_within file i m Hcoh Hwf Hi) as Hend.
  fold end_ sec in Hend.
  assert (Hsize : 0 <= size /\ Sym.Addr m + size <= Sec.Size sec /\
                  (Sym.Size m = 0 -> size = end_ - Sym.Addr m)).
  { destruct (Z.eqb_spec (Sym.Size m) 0) as [Hz | Hnz].
    - destruct (Z.leb_spec end_ (Sym.Addr m)) as [Hle | Hgt];
        [discriminate|].
      rewrite Z.gtb_ltb in Hres.
      destruct (Z.ltb_spec (u64 (Sym.Addr m + 4096)) end_) as [Hbig | Hok];
        [discriminate|].
      simpl in Hres. injection Hres as _ <-.
      pose proof (u64_le (Sym.Addr m + 4096)) as Hu.
      rewrite (u64_small (end_ - Sym.Addr m)) by lia.
      split; [lia|]. split; [lia|]. intros _. reflexivity.
    - injection Hres as _ <-. split; [lia|]. split; [lia|].
      intros Hz. contradiction. }
  destruct Hsize as (Hsz & Hin & Hinferred).
  assert (Hexact : offset = Sec.Offset sec + Sym.Addr m).
  { rewrite Hoff. apply u64_small. lia. }
  split; [exact Hexact|]. split.
  - unfold inSectionRange. fold sec. lia.
  - intros Hz Hbound. rewrite (Hinferred Hz), Hbound. lia.
Qed.

Lemma sampleFile_coherent : coherentSections sampleFile.
Proof.
  intros s1 s2 H1 H2 Ha.
  repeat (apply elem_of_cons in H1 as [-> | H1]);
    try (inversion H1; fail);
    repeat (apply elem_of_cons in H2 as [-> | H2]);
    try (inversion H2; fail);
    first [reflexivity | vm_compute in Ha; discriminate Ha].
Qed.

Lemma sampleFile_within : symbolsWithinSections sampleFile.
Proof.
  intros s Hin.
  repeat (apply elem_of_cons in Hin as [-> | Hin]; [simpl; lia|]).
  inversion Hin.
Qed.

Lemma findSymbol_offset_witness :
  (48 = 8 + 40 /\ inSectionRange (Sym.Make "delta" 40 0 dataSection) 48 8 /\
   48 + 8 = 8 + 48) /\
  (8 = 8 + 0 /\ inSectionRange (Sym.Make "alpha" 0 0 dataSection) 8 10).
Proof.
  assert (Hdelta : firstNamed (Symbols sampleFile) "delta" 4
                     (Sym.Make "delta" 40 0 dataSection)).
  { split; [reflexivity|]. split; [reflexivity|].
    intros j s Hj Hlook.
    destruct j as [|[|[|[|j]]]]; simpl in Hlook;
      try (injection Hlook as <-; discriminate); lia. }
  assert (Halpha : firstNamed (Symbols sampleFile) "alpha" 0
                     (Sym.Make "alpha" 0 0 dataSection)).
  { split; [reflexivity|]. split; [reflexivity|]. intros j s Hj. lia. }
  destruct (findSymbol_offset sampleFile "delta" 4 _ 48 8 Hdelta eq_refl)
    as [_ Hd].
  destruct (findSymbol_offset sampleFile "alpha" 0 _ 8 10 Halpha eq_refl)
    as [_ Ha].
  destruct (Hd sampleFile_coherent sampleFile_within) as (Hd1 & Hd2 & Hd3).
  destruct (Ha sampleFile_coherent sampleFile_within) as (Ha1 & Ha2 & _).
  split.
  - split; [exact Hd1|]. split; [exact Hd2|].
    apply Hd3; reflexivity.
  - split; [exact Ha1 | exact Ha2].
Defined.

(** C2 (counterexample).  The symbol [big] of [oversizedFile] has recorded
    size 100 in a section of 10 bytes at file offset 16: the resolution
    succeeds with the range [16, 116), which leaves the section's file range
    [16, 26). *)
Lemma findSymbol_range_counterexample :
  ~ (forall (file : File) (name : string) (i : nat) (m : Sym.t)
            (offset size : Z),
       firstNamed (Symbols file) name i m ->
       findSymbol file name = (offset, size, None) ->
       offset = Sec.Offset (deref (Sym.Section m)) + Sym.Addr m /\
       inSectionRange m offset size).
Proof.
  intros H.
  destruct (H oversizedFile "big"%string 0%nat
              (Sym.Make "big" 0 100 tinySection) 16 100) as [_ [_ Hr]].
  - split; [reflexivity|]. split; [reflexivity|]. intros j s Hj. lia.
  - reflexivity.
  - simpl in Hr. lia.
Qed.

(** C9.  [findSymbol] resolves the first symbol, in the order of the symbol
    list, whose name equals the requested name: its outcome is that of the
    loop body on that symbol, so a success carries that symbol's offset (and
    its recorded size, when it has one).  It fails with the symbol-not-found
    error, returning the sentinel [maxUint64] for offset and size, exactly
    when no symbol of the list has the name. *)
Theorem findSymbol_first_match (file : File) (name : string) :
  (forall (i : nat) (m : Sym.t),
     firstNamed (Symbols file) name i m ->
     findSymbol file name
     = resolveSymbol file m
         (nextSymbol (length (Symbols file)) m (S i)
            (drop (S i) (Symbols file))) /\
     forall offset size,
       findSymbol file name = (offset, size, None) ->
       offset = u64 (Sec.Offset (deref (Sym.Section m)) + Sym.Addr m) /\
       (Sym.Size m <> 0 -> size = Sym.Size m)) /\
  (snd (findSymbol file name) = Some errSymbolNotFound <->
   forall s, s ∈ Symbols file -> Sym.Name s <> name) /\
  (snd (findSymbol file name) = Some errSymbolNotFound ->
   findSymbol file name = (maxUint64, maxUint64, Some errSymbolNotFound)).
Proof.
  assert (Hiff : snd (findSymbol file name) = Some errSymbolNotFound ->
                 forall s, s ∈ Symbols file -> Sym.Name s <> name).
  { intros Herr s Hin Hname.
    destruct (firstNamed_exists (Symbols file) name) as (i & m & Hfirst).
    { exists s. split; assumption. }
    rewrite (findSymbol_runs_body _ _ _ _ Hfirst) in Herr.
    exact (resolveSymbol_not_notfound _ _ _ Herr). }
  split; [|split].
  - intros i m Hfirst. split; [apply findSymbol_runs_body; exact Hfirst|].
    intros offset size Hres.
    rewrite (findSymbol_resolved _ _ _ _ Hfirst) in Hres.
    destruct (Sym.Size m =? 0) eqn:Hz.
    + match type of Hres with
      | (if ?c then _ else _) = _ => destruct c; [discriminate|]
      end.
      injection Hres as <- <-. split; [reflexivity|].
      intros Hne. apply Z.eqb_eq in Hz. contradiction.
    + injection Hres as <- <-. split; [reflexivity|]. intros _. reflexivity.
  - split; [exact Hiff|].
    intros Habs. rewrite (findSymbol_absent _ _ Habs). reflexivity.
  - intros Herr. apply findSymbol_absent. apply Hiff. exact Herr.
Qed.

Lemma findSymbol_first_match_witness :
  findSymbol sampleFile "alpha" = (8, 10, None) /\
  8 = u64 (8 + 0) /\
  findSymbol sampleFile "absent" = (maxUint64, maxUint64, Some errSymbolNotFound).
Proof.
  destruct (findSymbol_first_match sampleFile "alpha") as (Hfirst & _ & _).
  destruct (findSymbol_first_match sampleFile "absent") as (_ & Hiff & Hsent).
  assert (Halpha : firstNamed (Symbols sampleFile) "alpha" 0
                     (Sym.Make "alpha" 0 0 dataSection)).
  { split; [reflexivity|]. split; [reflexivity|]. intros j s Hj. lia. }
  destruct (Hfirst _ _ Halpha) as [Hbody Hsucc].
  assert (Hres : findSymbol sampleFile "alpha" = (8, 10, None)).
  { rewrite Hbody. reflexivity. }
  split; [exact Hres|].
  split; [exact (proj1 (Hsucc 8 10 Hres))|].
  apply Hsent. apply Hiff.
  intros s Hin.
  repeat (apply elem_of_cons in Hin as [-> | Hin]; [discriminate|]).
  inversion Hin.
Defined.

(** ** Sinks *)

Lemma Write_nil (w : Writer) : Write w [] = (w, 0, None).
Proof.
  destruct w as [out [k|] f]; unfold Write; simpl.
  - rewrite app_nil_r, Nat.sub_0_r. reflexivity.
  - rewrite app_nil_r. reflexivity.
Qed.

Lemma WriteAll_nil (w : Writer) : WriteAll w [] = (w, None).
Proof. unfold WriteAll. rewrite Write_nil. reflexivity. Qed.

(** A write that succeeds takes the whole slice. *)
Lemma Write_ok (w w' : Writer) (p : list byte) (n : Z) :
  Write w p = (w', n, None) ->
  n = len p /\ written w' = written w ++ p /\ fault w' = fault w.
Proof.
  unfold Write. destruct (room w) as [k|].
  - destruct (length p <=? k)%nat; [|discriminate].
    intros H. injection H as <- <-. auto.
  - intros H. injection H as <- <-. auto.
Qed.

(** A write that fails takes fewer bytes than the slice has. *)
Lemma Write_fail (w w' : Writer) (p : list byte) (n : Z) (e : ioerr) :
  Write w p = (w', n, Some e) -> 0 <= n < len p.
Proof.
  unfold Write. destruct (room w) as [k|]; [|discriminate].
  destruct (length p <=? k)%nat eqn:Hk; [discriminate|].
  intros H. injection H as <- <- <-.
  apply Nat.leb_gt in Hk. unfold len. lia.
Qed.

(** Writing a slice in two pieces, stopping at the first failure, is
    writing it at once. *)
Lemma WriteAll_app (w : Writer) (p q : list byte) :
  WriteAll w (p ++ q)
  = match WriteAll w p with
    | (w1, None) => WriteAll w1 q
    | (w1, Some e) => (w1, Some e)
    end.
Proof.
  unfold WriteAll, Write. destruct w as [out [k|] f]; simpl.
  - rewrite length_app.
    destruct (length p <=? k)%nat eqn:Hp; simpl.
    + apply Nat.leb_le in Hp.
      destruct (length q <=? k - length p)%nat eqn:Hq.
      * apply Nat.leb_le in Hq.
        replace (length p + length q <=? k)%nat with true
          by (symmetry; apply Nat.leb_le; lia).
        rewrite app_assoc. do 3 f_equal. lia.
      * apply Nat.leb_gt in Hq.
        replace (length p + length q <=? k)%nat with false
          by (symmetry; apply Nat.leb_gt; lia).
        rewrite take_app, (take_ge p) by lia.
        rewrite app_assoc. reflexivity.
    + apply Nat.leb_gt in Hp.
      replace (length p + length q <=? k)%nat with false
        by (symmetry; apply Nat.leb_gt; lia).
      rewrite take_app_le by lia. reflexivity.
  - rewrite app_assoc. reflexivity.
Qed.

Lemma WriteAll_written (w w' : Writer) (p : list byte) :
  WriteAll w p = (w', None) -> written w' = written w ++ p.
Proof.
  unfold WriteAll. destruct (Write w p) as [[w1 n] e] eqn:HW.
  intros H. injection H as <- ->.
  apply Write_ok in HW. tauto.
Qed.

(** A sink without a limit takes everything. *)
Lemma WriteAll_unlimited (w : Writer) (p : list byte) :
  room w = None ->
  WriteAll w p = (mkWriter (written w ++ p) None (fault w), None).
Proof. intros Hr. unfold WriteAll, Write. rewrite Hr. reflexivity. Qed.

(** ** Windows of the source *)

Lemma window_empty (r0 : ReaderAt) (off limit : Z) :
  limit <= off -> window r0 off limit = [].
Proof.
  intros H. unfold window.
  replace (Z.to_nat (limit - off)) with 0%nat by lia. apply take_0.
Qed.

Lemma window_past_end (r0 : ReaderAt) (off limit : Z) :
  0 <= off -> len r0 <= off -> window r0 off limit = [].
Proof.
  intros H0 H. unfold window. rewrite drop_ge; [apply take_nil|].
  unfold len in H. lia.
Qed.

Lemma window_split (r0 : ReaderAt) (off k limit : Z) :
  0 <= off -> 0 <= k <= limit - off ->
  window r0 off limit = window r0 off (off + k) ++ window r0 (off + k) limit.
Proof.
  intros H0 Hk. unfold window.
  replace (off + k - off) with k by lia.
  replace (Z.to_nat (limit - off))
    with (Z.to_nat k + Z.to_nat (limit - (off + k)))%nat by lia.
  rewrite <- take_take_drop, drop_drop.
  replace (Z.to_nat (off + k)) with (Z.to_nat off + Z.to_nat k)%nat by lia.
  reflexivity.
Qed.

Lemma len_window (r0 : ReaderAt) (off limit : Z) :
  0 <= off ->
  len (window r0 off limit) = Z.max 0 (Z.min (limit - off) (len r0 - off)).
Proof.
  intros H0. unfold window, len. rewrite length_take, length_drop. lia.
Qed.

Lemma window_to_end (r0 : ReaderAt) (off limit : Z) :
  0 <= off -> len r0 <= limit ->
  window r0 off limit = drop (Z.to_nat off) r0.
Proof.
  intros H0 H. unfold window. apply take_ge.
  rewrite length_drop. unfold len in H. lia.
Qed.

Lemma window_from_start (r0 : ReaderAt) (limit : Z) :
  window r0 0 limit = take (Z.to_nat limit) r0.
Proof. unfold window. rewrite Z.sub_0_r. reflexivity. Qed.

(** ** io.Copy over a section of the source *)

(** One [Read] of a section reader that has not reached its limit. *)
Lemma SectionReader_Read_chunk (r0 : ReaderAt) (base off limit : Z) :
  0 <= off < limit -> limit <= maxInt64 ->
  let k := Z.min 32768 (limit - off) in
  let data := window r0 off (off + k) in
  SectionReader_Read (mkSectionReader r0 base off limit) 32768
  = Some (mkSectionReader r0 base (off + len data) limit, data,
          if len data <? k then Some EOF else None).
Proof.
  intros Hoff Hlim k data.
  assert (Hmax : maxInt64 = 2 ^ 63 - 1) by reflexivity.
  assert (Hk : 1 <= k <= limit - off) by (unfold k; lia).
  assert (Hdata : 0 <= len data <= k).
  { unfold data. rewrite len_window by lia. lia. }
  unfold SectionReader_Read. simpl.
  replace (limit <=? off) with false by (symmetry; apply Z.leb_gt; lia).
  rewrite (i64_small (limit - off)) by lia.
  replace (limit - off <? 0) with false by (symmetry; apply Z.ltb_ge; lia).
  rewrite andb_false_r.
  replace (if limit - off <? 32768 then limit - off else 32768) with k.
  2:{ unfold k. destruct (Z.ltb_spec (limit - off) 32768); lia. }
  unfold ReadAt.
  replace (off <? 0) with false by (symmetry; apply Z.ltb_ge; lia).
  replace (take (Z.to_nat k) (drop (Z.to_nat off) r0)) with data.
  2:{ unfold data, window. do 2 f_equal. lia. }
  rewrite (i64_small (off + len data)) by lia.
  reflexivity.
Qed.

(** With enough fuel the copy loop writes the window of the source between
    the reader's offset and its limit, and reports the sink's error, if any:
    reaching the end of the source early is not an error. *)
Lemma copyBuffer_window (r0 : ReaderAt) (base limit : Z) :
  limit <= maxInt64 ->
  forall (fuel : nat) (dst : Writer) (off : Z),
    0 <= off ->
    len r0 - off < Z.of_nat fuel ->
    copyBuffer fuel dst (mkSectionReader r0 base off limit)
    = let '(w', e) := WriteAll dst (window r0 off limit) in (w', Returns e).
Proof.
  intros Hlim. induction fuel as [|fuel IH]; intros dst off Hoff Hfuel.
  - simpl. rewrite window_past_end by lia. rewrite WriteAll_nil. reflexivity.
  - destruct (Z.le_gt_cases limit off) as [Hend | Hmore].
    + rewrite window_empty by lia. rewrite WriteAll_nil.
      simpl. unfold SectionReader_Read. simpl.
      replace (limit <=? off) with true by (symmetry; apply Z.leb_le; lia).
      reflexivity.
    + cbn [copyBuffer].
      rewrite SectionReader_Read_chunk by lia.
      set (k := Z.min 32768 (limit - off)).
      set (data := window r0 off (off + k)).
      assert (Hk : 1 <= k <= limit - off) by (unfold k; lia).
      assert (Hlen : len data = Z.max 0 (Z.min k (len r0 - off))).
      { unfold data. rewrite len_window by lia. f_equal. lia. }
      rewrite (window_split r0 off k limit) by lia. fold data.
      rewrite WriteAll_app.
      destruct (Z.ltb_spec 0 (len data)) as [Hpos | Hzero].
      * unfold WriteAll at 1.
        destruct (Write dst data) as [[dst' nw] [e|]] eqn:HW.
        -- pose proof (Write_fail _ _ _ _ _ HW) as Hnw.
           replace ((nw <? 0) || (len data <? nw)) with false; [reflexivity|].
           symmetry. apply orb_false_iff. rewrite !Z.ltb_ge. lia.
        -- pose proof (Write_ok _ _ _ _ HW) as (-> & _ & _).
           replace ((len data <? 0) || (len data <? len data)) with false.
           2:{ symmetry. apply orb_false_iff. rewrite !Z.ltb_ge. lia. }
           rewrite Z.eqb_refl.
           destruct (Z.ltb_spec (len data) k) as [Hshort | Hfull].
           ++ rewrite (window_past_end r0 (off + k)) by lia.
              rewrite WriteAll_nil. reflexivity.
           ++ replace (off + len data) with (off + k) by lia.
              apply IH; lia.
      * assert (Hnil : data = []).
        { destruct data; [reflexivity|]. unfold len in Hzero. simpl in Hzero. lia. }
        rewrite Hnil, WriteAll_nil. change (len (@nil byte)) with 0. simpl.
        replace (0 <? k) with true by (symmetry; apply Z.ltb_lt; lia).
        rewrite (window_past_end r0 (off + k)) by lia.
        rewrite WriteAll_nil. reflexivity.
Qed.

(** [io.Copy] of a section that starts at a non-negative offset. *)
Lemma io_Copy_window (r0 : ReaderAt) (dst : Writer) (base off limit : Z) :
  0 <= off -> limit <= maxInt64 ->
  io_Copy dst (mkSectionReader r0 base off limit)
  = let '(w', e) := WriteAll dst (window r0 off limit) in (w', Returns e).
Proof.
  intros Hoff Hlim. unfold io_Copy. simpl sr_r.
  apply copyBuffer_window; [exact Hlim | exact Hoff |].
  unfold len. lia.
Qed.

(** More fuel does not change the outcome of the copy loop. *)
Lemma copyBuffer_enough_fuel (r0 : ReaderAt) (base off limit : Z)
    (dst : Writer) (fuel : nat) :
  0 <= off -> limit <= maxInt64 -> (length r0 < fuel)%nat ->
  copyBuffer fuel dst (mkSectionReader r0 base off limit)
  = io_Copy dst (mkSectionReader r0 base off limit).
Proof.
  intros Hoff Hlim Hfuel.
  rewrite io_Copy_window by assumption.
  apply copyBuffer_window; [exact Hlim | exact Hoff |].
  unfold len. lia.
Qed.

(** ** copyAndInject *)

Lemma NewSectionReader_prefix (r0 : ReaderAt) (n : Z) :
  0 <= n <= maxInt64 ->
  NewSectionReader r0 0 n = mkSectionReader r0 0 0 n.
Proof.
  intros Hn. assert (Hmax : maxInt64 = 2 ^ 63 - 1) by reflexivity.
  unfold NewSectionReader.
  rewrite (i64_small (maxInt64 - n)) by lia.
  replace (0 <=? maxInt64 - n) with true by (symmetry; apply Z.leb_le; lia).
  rewrite (i64_small (n + 0)) by lia.
  rewrite Z.add_0_r. reflexivity.
Qed.

Lemma NewSectionReader_suffix (r0 : ReaderAt) (pos : Z) :
  0 <= pos <= maxInt64 ->
  NewSectionReader r0 pos (i64 (maxInt64 - pos))
  = mkSectionReader r0 pos pos maxInt64.
Proof.
  intros Hn. assert (Hmax : maxInt64 = 2 ^ 63 - 1) by reflexivity.
  unfold NewSectionReader.
  rewrite (i64_small (maxInt64 - pos)) by lia.
  replace (maxInt64 - (maxInt64 - pos)) with pos by lia.
  rewrite (i64_small pos) by lia.
  rewrite Z.leb_refl.
  replace (maxInt64 - pos + pos) with maxInt64 by lia.
  rewrite (i64_small maxInt64) by lia. reflexivity.
Qed.

(** For an offset and a buffer that stay within [int64], [copyAndInject]
    writes the source up to the offset, the buffer, and the source from the
    end of the buffer on -- each as far as the source has the bytes -- and
    returns the first error of the sink. *)
Lemma copyAndInject_stream (r0 : ReaderAt) (w : Writer) (offset : Z)
    (buf : list byte) :
  0 <= offset -> offset + len buf <= maxInt64 ->
  copyAndInject r0 w offset buf
  = let '(w', e) :=
      WriteAll w (window r0 0 offset ++ buf
                  ++ window r0 (offset + len buf) maxInt64) in
    (w', Returns (unexpectedEOF e)).
Proof.
  intros Hoff Hfit.
  assert (Hmax : maxInt64 = 2 ^ 63 - 1) by reflexivity.
  pose proof (len_nonneg buf) as Hbuf.
  unfold copyAndInject.
  rewrite (i64_small offset) by lia.
  rewrite (i64_small (offset + len buf)) by lia.
  rewrite NewSectionReader_prefix by lia.
  rewrite NewSectionReader_suffix by lia.
  rewrite io_Copy_window by lia.
  rewrite WriteAll_app.
  destruct (WriteAll w (window r0 0 offset)) as [w1 [e1|]].
  { destruct e1; reflexivity. }
  rewrite WriteAll_app.
  change (WriteAll w1 buf) with (let '(w', _, e) := Write w1 buf in (w', e)).
  destruct (Write w1 buf) as [[w2 n2] [e2|]].
  { destruct e2; reflexivity. }
  rewrite io_Copy_window by lia.
  destruct (WriteAll w2 (window r0 (offset + len buf) maxInt64)) as [w3 [e3|]].
  - destruct e3; reflexivity.
  - reflexivity.
Qed.

(** With a sink that has no limit [copyAndInject] succeeds whatever the
    length of the source is. *)
Lemma copyAndInject_unlimited (r0 : ReaderAt) (w : Writer) (offset : Z)
    (buf : list byte) :
  room w = None ->
  0 <= offset -> offset + len buf <= maxInt64 ->
  copyAndInject r0 w offset buf
  = (mkWriter (written w ++ window r0 0 offset ++ buf
               ++ window r0 (offset + len buf) maxInt64) None (fault w),
     Returns None).
Proof.
  intros Hroom Hoff Hfit.
  rewrite copyAndInject_stream by assumption.
  rewrite WriteAll_unlimited by exact Hroom. reflexivity.
Qed.

(** When the source has the bytes the patch replaces, the three pieces make
    up the patched source. *)
Lemma stream_patched (r0 : ReaderAt) (offset : Z) (buf : list byte) :
  0 <= offset -> offset + len buf <= len r0 -> len r0 <= maxInt64 ->
  window r0 0 offset ++ buf ++ window r0 (offset + len buf) maxInt64
  = patched r0 offset buf.
Proof.
  intros Hoff Hin Hmax. pose proof (len_nonneg buf) as Hbuf.
  unfold patched.
  rewrite window_from_start, window_to_end by lia.
  do 3 f_equal. unfold len. lia.
Qed.

Lemma length_patched (r0 : ReaderAt) (offset : Z) (buf : list byte) :
  0 <= offset -> offset + len buf <= len r0 ->
  len (patched r0 offset buf) = len r0.
Proof.
  unfold patched, len. intros Hoff Hin.
  rewrite !length_app, length_take, length_drop. lia.
Qed.

Lemma lookup_patched_before (r0 : ReaderAt) (offset : Z) (buf : list byte)
    (i : nat) :
  0 <= offset -> offset + len buf <= len r0 ->
  Z.of_nat i < offset ->
  patched r0 offset buf !! i = r0 !! i.
Proof.
  unfold patched, len. intros Hoff Hin Hi.
  rewrite lookup_app_l by (rewrite length_take; lia).
  apply lookup_take_lt. lia.
Qed.

Lemma lookup_patched_after (r0 : ReaderAt) (offset : Z) (buf : list byte)
    (i : nat) :
  0 <= offset -> offset + len buf <= len r0 ->
  offset + len buf <= Z.of_nat i ->
  patched r0 offset buf !! i = r0 !! i.
Proof.
  unfold patched, len. intros Hoff Hin Hi.
  rewrite lookup_app_r by (rewrite length_take; lia).
  rewrite lookup_app_r by (rewrite length_take; lia).
  rewrite lookup_drop, length_take. f_equal. lia.
Qed.

Lemma lookup_patched_inside (r0 : ReaderAt) (offset : Z) (buf : list byte)
    (i : nat) :
  0 <= offset -> offset + len buf <= len r0 ->
  patched r0 offset buf !! (Z.to_nat offset + i)%nat = 
  if (i <? length buf)%nat then buf !! i else r0 !! (Z.to_nat offset + i)%nat.
Proof.
  unfold patched, len. intros Hoff Hin.
  rewrite lookup_app_r by (rewrite length_take; lia).
  rewrite length_take.
  replace (Z.to_nat offset + i - Z.to_nat offset `min` length r0)%nat
    with i by lia.
  destruct (Nat.ltb_spec i (length buf)) as [Hlt | Hge].
  - apply lookup_app_l. exact Hlt.
  - rewrite lookup_app_r by lia. rewrite lookup_drop. f_equal. lia.
Qed.

(** C6.  A successful patch at offset [O] with a replacement of [L] bytes,
    on a source of [N] bytes with [O + L <= N], appends to the sink an output
    stream of exactly [N] bytes whose bytes outside [[O, O+L)] are those of
    the source (and whose bytes inside are the replacement).  The source is
    only ever read: it is an argument of the patcher, not part of the state
    the patcher returns. *)
Theorem copyAndInject_frame (r0 : ReaderAt) (w w' : Writer) (offset : Z)
    (buf : list byte) :
  0 <= offset -> offset + len buf <= len r0 -> len r0 <= maxInt64 ->
  copyAndInject r0 w offset buf = (w', Returns None) ->
  exists out : list byte,
    written w' = written w ++ out /\
    len out = len r0 /\
    (forall i : nat,
       Z.of_nat i < offset \/ offset + len buf <= Z.of_nat i ->
       out !! i = r0 !! i) /\
    (forall i : nat,
       (i < length buf)%nat -> out !! (Z.to_nat offset + i)%nat = buf !! i).
Proof.
  intros Hoff Hin Hmax Hrun.
  rewrite copyAndInject_stream in Hrun by lia.
  rewrite stream_patched in Hrun by assumption.
  destruct (WriteAll w (patched r0 offset buf)) as [w1 e] eqn:HW.
  injection Hrun as -> He.
  assert (e = None) as -> by (destruct e as [[]|]; simpl in He; congruence).
  exists (patched r0 offset buf).
  split; [exact (WriteAll_written _ _ _ HW)|].
  split; [apply length_patched; assumption|].
  split.
  - intros i [Hi | Hi].
    + apply lookup_patched_before; assumption.
    + apply lookup_patched_after; assumption.
  - intros i Hi. rewrite lookup_patched_inside by assumption.
    apply Nat.ltb_lt in Hi. rewrite Hi. reflexivity.
Qed.

Lemma copyAndInject_frame_witness :
  exists out : list byte,
    out = bytesOf "abWXYZgh" /\
    len out = len (bytesOf "abcdefgh") /\
    out !! 1%nat = bytesOf "abcdefgh" !! 1%nat /\
    out !! 6%nat = bytesOf "abcdefgh" !! 6%nat.
Proof.
  destruct (copyAndInject_frame (bytesOf "abcdefgh") emptySink
              (mkWriter (bytesOf "abWXYZgh") None ErrShortWrite) 2
              (bytesOf "WXYZ"))
    as (out & Hout & Hlen & Hframe & _).
  - lia.
  - vm_compute. discriminate.
  - vm_compute. discriminate.
  - vm_compute. reflexivity.
  - exists out. simpl in Hout. split; [rewrite <- Hout; reflexivity|].
    split; [exact Hlen|].
    split; apply Hframe; [left | right]; unfold len; simpl; lia.
Defined.

(** C7 (evaluation of the code where the claim fails).  A source of three
    bytes patched at offset 5, and a source of six bytes patched at offset 4
    with four bytes: the source ends during the prefix copy, or before the
    suffix starts, and [copyAndInject] returns [nil] with an output that is
    not the patched source.  [io.Copy] ends at the end of its input without
    an error, so the [io.EOF] the last step looks for never comes from the
    source. *)
Theorem copyAndInject_short_source :
  copyAndInject (bytesOf "abc") emptySink 5 (bytesOf "ZZ")
  = (mkWriter (bytesOf "abcZZ") None ErrShortWrite, Returns None) /\
  copyAndInject (bytesOf "abcdef") emptySink 4 (bytesOf "WXYZ")
  = (mkWriter (bytesOf "abcdWXYZ") None ErrShortWrite, Returns None) /\
  InjectStringSymbol truncatedFile emptySink "delta" (bytesOf "v2") []
  = (mkWriter (take 20 sampleSource ++ padded 8 (bytesOf "v2")) None
       ErrShortWrite, Returns None).
Proof.
  split; [|split]; vm_compute; reflexivity.
Qed.

(** ** Byte slices: make, copy, compare, little-endian *)

Lemma maxAlloc_int64 : 0 < maxAlloc /\ maxAlloc <= maxInt64.
Proof. unfold maxAlloc, maxInt64. lia. Qed.

Lemma make_fits (size : Z) :
  size <= maxAlloc -> make size = Some (replicate (Z.to_nat size) x00).
Proof.
  intros H. unfold make.
  replace (maxAlloc <? size) with false by (symmetry; apply Z.ltb_ge; lia).
  reflexivity.
Qed.

Lemma make_too_large (size : Z) : maxAlloc < size -> make size = None.
Proof.
  intros H. unfold make.
  replace (maxAlloc <? size) with true by (symmetry; apply Z.ltb_lt; lia).
  reflexivity.
Qed.

Lemma make_Some_fits (size : Z) (b : list byte) :
  make size = Some b -> size <= maxAlloc.
Proof.
  unfold make. destruct (Z.ltb_spec maxAlloc size); [discriminate | lia].
Qed.

(** [copy] into a fresh slice of [size] zero bytes gives the padded
    representation. *)
Lemma copy_make (size : Z) (b s : list byte) :
  make size = Some b -> copy b s = padded size s.
Proof.
  unfold make. destruct (maxAlloc <? size); [discriminate|].
  intros H. injection H as <-.
  unfold copy, padded.
  rewrite length_replicate, drop_replicate. reflexivity.
Qed.

Lemma len_padded (size : Z) (s : list byte) :
  0 <= size -> len (padded size s) = size.
Proof.
  intros H. unfold padded, len.
  rewrite length_app, length_take, length_replicate. lia.
Qed.

Lemma padded_short (size : Z) (s : list byte) :
  len s <= size ->
  padded size s = s ++ replicate (Z.to_nat (size - len s)) x00.
Proof.
  unfold padded, len. intros H.
  rewrite take_ge by lia. do 2 f_equal. lia.
Qed.

Lemma padded_long (size : Z) (s : list byte) :
  size <= len s -> padded size s = take (Z.to_nat size) s.
Proof.
  unfold padded, len. intros H.
  replace (Z.to_nat size - length s)%nat with 0%nat by lia.
  apply app_nil_r.
Qed.

Lemma padded_prefix (size : Z) (s : list byte) :
  len s <= size -> take (length s) (padded size s) = s.
Proof.
  intros H. rewrite padded_short by exact H. apply take_app_length.
Qed.

Lemma padded_zero_fill (size : Z) (s : list byte) (i : nat) :
  len s <= size -> (length s <= i)%nat -> Z.of_nat i < size ->
  padded size s !! i = Some x00.
Proof.
  intros H Hi Hsize. rewrite padded_short by exact H.
  rewrite lookup_app_r by exact Hi.
  apply lookup_replicate_2. unfold len in *. lia.
Qed.

Lemma Z_of_byte_inj (x y : byte) : Z_of_byte x = Z_of_byte y -> x = y.
Proof.
  unfold Z_of_byte. intros H. apply N2Z.inj in H.
  pose proof (Byte.of_to_N x) as Hx. pose proof (Byte.of_to_N y) as Hy.
  rewrite H in Hx. congruence.
Qed.

Lemma Z_of_byte_range (b : byte) : 0 <= Z_of_byte b < 256.
Proof.
  unfold Z_of_byte. pose proof (Byte.to_N_bounded b). lia.
Qed.

Lemma Z_of_byte_of_Z (z : Z) : Z_of_byte (byte_of_Z z) = z mod 256.
Proof.
  unfold Z_of_byte, byte_of_Z.
  assert (Hr : 0 <= z mod 256 < 256) by (apply Z.mod_pos_bound; lia).
  destruct (Byte.of_N (Z.to_N (z mod 256))) as [b|] eqn:Hb.
  - apply Byte.to_of_N in Hb. rewrite Hb. lia.
  - apply Byte.of_N_None_iff in Hb. lia.
Qed.

(** [bytes.Compare] returns 0 exactly on equal slices. *)
Lemma bytes_Compare_eq (a b : list byte) : bytes_Compare a b = 0 <-> a = b.
Proof.
  revert b. induction a as [|x a IH]; intros [|y b]; simpl.
  - tauto.
  - split; [lia | discriminate].
  - split; [lia | discriminate].
  - destruct (Z.ltb_spec (Z_of_byte x) (Z_of_byte y)) as [Hlt | Hge].
    + split; [lia|]. intros H. injection H as -> _. lia.
    + destruct (Z.ltb_spec (Z_of_byte y) (Z_of_byte x)) as [Hgt | Hle].
      * split; [lia|]. intros H. injection H as -> _. lia.
      * assert (x = y) as -> by (apply Z_of_byte_inj; lia).
        rewrite IH. split; [intros ->; reflexivity|].
        intros H. injection H as ->. reflexivity.
Qed.

Lemma mod_split_byte (v : Z) (n : Z) :
  0 <= n -> v mod 2 ^ (8 + n) = v mod 256 + 256 * ((v / 256) mod 2 ^ n).
Proof.
  intros Hn. rewrite Z.pow_add_r by lia.
  change (2 ^ 8) with 256.
  apply Z.rem_mul_r; [lia|]. apply Z.pow_pos_nonneg; lia.
Qed.

Lemma le_value_le_bytes (n : nat) :
  forall v : Z, le_value (le_bytes n v) = v mod 2 ^ (8 * Z.of_nat n).
Proof.
  induction n as [|n IH]; intros v.
  - simpl. rewrite Z.mod_1_r. reflexivity.
  - cbn [le_bytes le_value]. rewrite Z_of_byte_of_Z, IH.
    replace (8 * Z.of_nat (S n)) with (8 + 8 * Z.of_nat n) by lia.
    rewrite mod_split_byte by lia. reflexivity.
Qed.

Lemma length_le_bytes (n : nat) : forall v : Z, length (le_bytes n v) = n.
Proof. induction n as [|n IH]; intros v; simpl; [|rewrite IH]; reflexivity. Qed.

(** [PutUint64] on a fresh 8-byte slice stores the eight low bytes of the
    value, least significant first. *)
Lemma PutUint64_le_bytes (v : Z) :
  PutUint64 (replicate 8 x00) v = le_bytes 8 v.
Proof.
  unfold PutUint64. cbn [le_bytes replicate drop app].
  rewrite !Z.shiftr_div_pow2 by lia.
  rewrite !Z.div_div by lia.
  reflexivity.
Qed.

Lemma le_value_PutUint64 (v : Z) :
  le_value (PutUint64 (replicate 8 x00) v) = u64 v.
Proof. rewrite PutUint64_le_bytes, le_value_le_bytes. reflexivity. Qed.

(** ** InjectStringSymbol and InjectUint64Symbol *)

Lemma resolveSymbol_offset_range (file : File) (m : Sym.t) (n : nat)
    (offset size : Z) (err : option error) :
  resolveSymbol file m n = (offset, size, err) -> 0 <= offset < 2 ^ 64.
Proof.
  unfold resolveSymbol.
  pose proof (u64_range (Sec.Offset (deref (Sym.Section m)) + Sym.Addr m)) as Hu.
  assert (Hm : 0 <= maxUint64 < 2 ^ 64) by (unfold maxUint64; lia).
  destruct (Sym.Size m =? 0).
  - match goal with |- context [if ?c then _ else _] => destruct c end;
      intros H; injection H as <- _ _; assumption.
  - intros H; injection H as <- _ _; assumption.
Qed.

Lemma findSymbolFrom_offset_range (file : File) (name : string) :
  forall (rest : list Sym.t) (i : nat) (offset size : Z) (err : option error),
    findSymbolFrom file name i rest = (offset, size, err) ->
    0 <= offset < 2 ^ 64.
Proof.
  induction rest as [|s rest IH]; intros i offset size err; simpl.
  - intros H. injection H as <- _ _. unfold maxUint64. lia.
  - destruct (String.eqb (Sym.Name s) name).
    + apply resolveSymbol_offset_range.
    + apply IH.
Qed.

(** The offset [findSymbol] returns is a [uint64]. *)
Lemma findSymbol_returns_uint64 (file : File) (name : string) (offset size : Z)
    (err : option error) :
  findSymbol file name = (offset, size, err) -> 0 <= offset < 2 ^ 64.
Proof. apply findSymbolFrom_offset_range. Qed.

(** The integrity check when the source has the [size] bytes at [offset]:
    they are compared with the padded expected value. *)
Lemma checkExisting_compare (file : File) (offset size : Z) (from : list byte) :
  0 <= offset -> 1 <= size -> offset + size <= len (r file) ->
  len (r file) <= maxInt64 -> size <= maxAlloc ->
  let existing := window (r file) offset (offset + size) in
  let expected := padded size from in
  len existing = size /\
  checkExisting file offset size from
  = if decide (existing = expected) then None
    else Some (Returns (Some (errContentsMismatch existing expected))).
Proof.
  intros Hoff Hsize Hin Hmax Halloc existing expected.
  assert (Hm : maxInt64 = 2 ^ 63 - 1) by reflexivity.
  assert (Hlen : len existing = size).
  { unfold existing. rewrite len_window by lia. lia. }
  split; [exact Hlen|].
  unfold checkExisting. rewrite make_fits by lia.
  rewrite (copy_make size) by (apply make_fits; lia).
  fold expected.
  assert (Hzeros : len (replicate (Z.to_nat size) x00) = size).
  { unfold len. rewrite length_replicate. lia. }
  rewrite Hzeros. unfold ReadAt.
  rewrite (i64_small offset) by lia.
  replace (offset <? 0) with false by (symmetry; apply Z.ltb_ge; lia).
  replace (take (Z.to_nat size) (drop (Z.to_nat offset) (r file)))
    with existing.
  2:{ unfold existing, window. do 2 f_equal. lia. }
  rewrite Hlen, Z.ltb_irrefl.
  destruct (decide (existing = expected)) as [Heq | Hne].
  - apply bytes_Compare_eq in Heq. rewrite Heq. reflexivity.
  - destruct (Z.eqb_spec (bytes_Compare existing expected) 0) as [H0 | H0].
    + apply bytes_Compare_eq in H0. contradiction.
    + reflexivity.
Qed.


(** Whatever the integrity check decides, it is a panic, an error of the
    read, or the mismatch error. *)
Lemma checkExisting_kinds (file : File) (offset size : Z) (from : list byte)
    (c : completion error) :
  checkExisting file offset size from = Some c ->
  c = Panics \/
  (exists e, c = Returns (Some (ioError e))) \/
  (exists a b, c = Returns (Some (errContentsMismatch a b))).
Proof.
  unfold checkExisting. destruct (make size) as [b|].
  - destruct (ReadAt (r file) (len b) (i64 offset)) as [existing [e|]].
    + intros H. injection H as <-. right. left. exists e. reflexivity.
    + destruct (negb (bytes_Compare existing (copy b from) =? 0)).
      * intros H. injection H as <-. right. right. eauto.
      * discriminate.
  - intros H. injection H as <-. left. reflexivity.
Qed.

(** [InjectStringSymbol] once the symbol is resolved and the value fits. *)
Lemma InjectStringSymbol_fits (file : File) (w : Writer) (symbol : string)
    (value from : list byte) (offset size : Z) :
  findSymbol file symbol = (offset, size, None) ->
  len value + 1 <= size ->
  InjectStringSymbol file w symbol value from
  = match match from with
          | [] => None
          | _ :: _ => checkExisting file offset size from
          end with
    | Some c => (w, c)
    | None =>
        match make size with
        | None => (w, Panics)
        | Some _ =>
            let '(w', c) := copyAndInject (r file) w offset (padded size value) in
            (w', liftIO c)
        end
    end.
Proof.
  intros Hfind Hfit. unfold InjectStringSymbol. rewrite Hfind.
  replace (len value + 1 >? size) with false
    by (symmetry; rewrite Z.gtb_ltb; apply Z.ltb_ge; lia).
  destruct (match from with [] => None | _ :: _ => checkExisting file offset size from end);
    [reflexivity|].
  destruct (make size) as [b|] eqn:Hmake; [|reflexivity].
  rewrite (copy_make _ _ _ Hmake). reflexivity.
Qed.

Lemma liftIO_success (c : completion ioerr) :
  liftIO c = Returns None -> c = Returns None.
Proof. destruct c as [[e|]|]; simpl; congruence. Qed.

Lemma liftIO_kinds (c : completion ioerr) :
  liftIO c = Panics \/ liftIO c = Returns None \/
  exists e, liftIO c = Returns (Some (ioError e)).
Proof. destruct c as [[e|]|]; simpl; eauto. Qed.

(** A successful run of [copyAndInject] on a source that has the patched
    range appends the patched source to the sink. *)
Lemma copyAndInject_success (r0 : ReaderAt) (w w' : Writer) (offset : Z)
    (buf : list byte) :
  0 <= offset -> offset + len buf <= len r0 -> len r0 <= maxInt64 ->
  copyAndInject r0 w offset buf = (w', Returns None) ->
  written w' = written w ++ patched r0 offset buf.
Proof.
  intros Hoff Hin Hmax Hrun.
  rewrite copyAndInject_stream in Hrun by lia.
  rewrite stream_patched in Hrun by assumption.
  destruct (WriteAll w (patched r0 offset buf)) as [w1 e] eqn:HW.
  injection Hrun as -> He.
  assert (e = None) as -> by (destruct e as [[]|]; simpl in He; congruence).
  exact (WriteAll_written _ _ _ HW).
Qed.

(** The integrity check inside [InjectStringSymbol], for a symbol whose
    bytes the source has: a difference between the existing bytes and the
    padded expected value ends the injection with the mismatch error and the
    sink as it was; equality lets it go on to [copyAndInject]. *)
Lemma InjectStringSymbol_checked (file : File) (w : Writer)
    (symbol : string) (value from : list byte) (offset size : Z) :
  findSymbol file symbol = (offset, size, None) ->
  len value + 1 <= size ->
  from <> [] ->
  offset + size <= len (r file) -> len (r file) <= maxInt64 ->
  size <= maxAlloc ->
  let existing := window (r file) offset (offset + size) in
  let expected := padded size from in
  len existing = size /\
  (existing <> expected ->
   InjectStringSymbol file w symbol value from
   = (w, Returns (Some (errContentsMismatch existing expected)))) /\
  (existing = expected ->
   InjectStringSymbol file w symbol value from
   = (let '(w', c) := copyAndInject (r file) w offset (padded size value) in
      (w', liftIO c))).
Proof.
  intros Hfind Hfit Hfrom Hin Hmax Halloc existing expected.
  pose proof (len_nonneg value) as Hv.
  pose proof (findSymbol_returns_uint64 _ _ _ _ _ Hfind) as Hoff.
  destruct (checkExisting_compare file offset size from) as [Hlen Hcheck];
    [lia | lia | exact Hin | exact Hmax | exact Halloc |].
  fold existing expected in Hlen, Hcheck.
  split; [exact Hlen|].
  rewrite (InjectStringSymbol_fits _ _ _ _ _ _ _ Hfind Hfit).
  destruct from as [|b from]; [contradiction|].
  rewrite Hcheck.
  split; intros Hcmp.
  - destruct (decide (existing = expected)); [contradiction | reflexivity].
  - destruct (decide (existing = expected)); [|contradiction].
    rewrite make_fits by lia. reflexivity.
Qed.

(** A string injection that returns [nil] has allocated its buffer: the
    symbol is no larger than the allocation limit. *)
Lemma InjectStringSymbol_success_alloc (file : File) (w w' : Writer)
    (symbol : string) (value from : list byte) (offset size : Z) :
  findSymbol file symbol = (offset, size, None) ->
  len value + 1 <= size ->
  InjectStringSymbol file w symbol value from = (w', Returns None) ->
  size <= maxAlloc.
Proof.
  intros Hfind Hfit Hrun.
  rewrite (InjectStringSymbol_fits _ _ _ _ _ _ _ Hfind Hfit) in Hrun.
  destruct (match from with
            | [] => None
            | _ :: _ => checkExisting file offset size from
            end) as [c|] eqn:Hcheck.
  - destruct from as [|b from]; [discriminate|].
    destruct (checkExisting_kinds _ _ _ _ _ Hcheck)
      as [-> | [[e ->] | (a & b' & ->)]]; discriminate.
  - destruct (make size) as [zeros|] eqn:Hmake; [|discriminate].
    exact (make_Some_fits _ _ Hmake).
Qed.

(** C3.  Once the symbol is resolved to [(offset, size)]: if
    [len(value) + 1 > size] the injection fails with the
    value-overflows-symbol-capacity error, nothing else happens and nothing
    is written.  Otherwise the replacement is [padded size value]: exactly
    [size] bytes, the first [len(value)] of them the bytes of [value], the
    rest zero; the injection either ends at the integrity check (or panics
    at a [make] beyond the allocation limit) without writing, or it is
    [copyAndInject] of that replacement at [offset]; and when it succeeds on
    a source that has the symbol's bytes, the output is the source with the
    replacement at [offset]. *)
Theorem InjectStringSymbol_capacity (file : File) (w : Writer)
    (symbol : string) (value from : list byte) (offset size : Z) :
  findSymbol file symbol = (offset, size, None) ->
  (len value + 1 > size ->
   InjectStringSymbol file w symbol value from
   = (w, Returns (Some (errValueOverflows (len value) size)))) /\
  (len value + 1 <= size ->
   let buf := padded size value in
   (len buf = size /\
    take (length value) buf = value /\
    forall i : nat,
      (length value <= i)%nat -> Z.of_nat i < size -> buf !! i = Some x00) /\
   ((maxAlloc < size /\
     InjectStringSymbol file w symbol value from = (w, Panics)) \/
    (exists c, from <> [] /\ checkExisting file offset size from = Some c /\
               InjectStringSymbol file w symbol value from = (w, c)) \/
    InjectStringSymbol file w symbol value from
    = (let '(w', c) := copyAndInject (r file) w offset buf in (w', liftIO c))) /\
   (forall w' : Writer,
      InjectStringSymbol file w symbol value from = (w', Returns None) ->
      offset + size <= len (r file) -> len (r file) <= maxInt64 ->
      written w' = written w ++ patched (r file) offset buf)).
Proof.
  intros Hfind. split.
  - intros Hover. unfold InjectStringSymbol. rewrite Hfind.
    replace (len value + 1 >? size) with true; [reflexivity|].
    symmetry. rewrite Z.gtb_ltb. apply Z.ltb_lt. lia.
  - intros Hfit buf.
    pose proof (len_nonneg value) as Hv.
    pose proof (findSymbol_returns_uint64 _ _ _ _ _ Hfind) as Hoff.
    assert (Hlen : len buf = size) by (apply len_padded; lia).
    split; [split; [exact Hlen | split]|].
    { apply padded_prefix. lia. }
    { intros i Hi Hsize. apply padded_zero_fill; [lia | exact Hi | exact Hsize]. }
    rewrite (InjectStringSymbol_fits _ _ _ _ _ _ _ Hfind Hfit). fold buf.
    destruct from as [|b from].
    + destruct (make size) as [zeros|] eqn:Hmake.
      * split; [right; right; reflexivity|].
        intros w' Hrun Hin Hmax.
        destruct (copyAndInject (r file) w offset buf) as [w1 c] eqn:Hc.
        injection Hrun as -> Hlift. apply liftIO_success in Hlift. subst c.
        apply (copyAndInject_success _ _ _ _ _ (proj1 Hoff)) in Hc;
          [exact Hc | lia | exact Hmax].
      * split; [|discriminate].
        left. split; [|reflexivity].
        unfold make in Hmake.
        destruct (Z.ltb_spec maxAlloc size); [assumption | discriminate].
    + destruct (checkExisting file offset size (b :: from)) as [c|] eqn:Hcheck.
      * split.
        -- right. left. exists c. split; [discriminate|]. split; reflexivity.
        -- intros w' Hrun.
           destruct (checkExisting_kinds _ _ _ _ _ Hcheck)
             as [-> | [[e ->] | (a & b' & ->)]]; discriminate.
      * destruct (make size) as [zeros|] eqn:Hmake.
        -- split; [right; right; reflexivity|].
           intros w' Hrun Hin Hmax.
           destruct (copyAndInject (r file) w offset buf) as [w1 c] eqn:Hc.
           injection Hrun as -> Hlift. apply liftIO_success in Hlift. subst c.
           apply (copyAndInject_success _ _ _ _ _ (proj1 Hoff)) in Hc;
             [exact Hc | lia | exact Hmax].
        -- split; [|discriminate].
           left. split; [|reflexivity].
           unfold make in Hmake.
           destruct (Z.ltb_spec maxAlloc size); [assumption | discriminate].
Qed.

Lemma InjectStringSymbol_capacity_witness :
  InjectStringSymbol sampleFile emptySink "delta" (bytesOf "12345678") []
  = (emptySink, Returns (Some (errValueOverflows 8 8))) /\
  padded 8 (bytesOf "1234567") !! 7%nat = Some x00 /\
  written (fst (InjectStringSymbol sampleFile emptySink "delta"
                  (bytesOf "1234567") []))
  = patched sampleSource 48 (padded 8 (bytesOf "1234567")).
Proof.
  assert (Hfind : findSymbol sampleFile "delta" = (48, 8, None)) by reflexivity.
  destruct (InjectStringSymbol_capacity sampleFile emptySink "delta"
              (bytesOf "12345678") [] 48 8 Hfind) as [Hover _].
  destruct (InjectStringSymbol_capacity sampleFile emptySink "delta"
              (bytesOf "1234567") [] 48 8 Hfind) as [_ Hfit].
  split; [apply Hover; vm_compute; reflexivity|].
  destruct Hfit as ((_ & _ & Hzero) & _ & Hout); [vm_compute; discriminate|].
  split; [apply Hzero; [vm_compute; lia | lia]|].
  apply (Hout (fst (InjectStringSymbol sampleFile emptySink "delta"
                      (bytesOf "1234567") []))).
  - vm_compute. reflexivity.
  - vm_compute. discriminate.
  - vm_compute. discriminate.
Defined.



(** C10.  When the non-empty expected prior value is longer than the
    resolved symbol, no capacity error is raised on its account (the
    injection never ends with the value-overflows error once the value
    itself fits).  Its [size]-byte representation is just its first [size]
    bytes, and the integrity check compares the existing bytes of the symbol
    with exactly those: the check passes, and the injection goes on to
    write, if and only if the existing bytes equal the first [size] bytes of
    the expected value -- whatever the expected value holds beyond them --
    and otherwise the injection fails with the mismatch error, which carries
    the existing bytes and that prefix, and nothing is written. *)
Theorem InjectStringSymbol_long_prior_value (file : File) (w : Writer)
    (symbol : string) (value from : list byte) (offset size : Z) :
  findSymbol file symbol = (offset, size, None) ->
  len value + 1 <= size ->
  size < len from ->
  offset + size <= len (r file) -> len (r file) <= maxInt64 ->
  size <= maxAlloc ->
  let existing := window (r file) offset (offset + size) in
  let prefix := take (Z.to_nat size) from in
  padded size from = prefix /\
  (forall (w' : Writer) (l s : Z),
     InjectStringSymbol file w symbol value from
     <> (w', Returns (Some (errValueOverflows l s)))) /\
  (existing = prefix ->
   checkExisting file offset size from = None /\
   InjectStringSymbol file w symbol value from
   = (let '(w', c) := copyAndInject (r file) w offset (padded size value) in
      (w', liftIO c))) /\
  (existing <> prefix ->
   checkExisting file offset size from
   = Some (Returns (Some (errContentsMismatch existing prefix))) /\
   InjectStringSymbol file w symbol value from
   = (w, Returns (Some (errContentsMismatch existing prefix)))) /\
  (forall rest : list byte,
     InjectStringSymbol file w symbol value (prefix ++ rest)
     = InjectStringSymbol file w symbol value from).
Proof.
  intros Hfind Hfit Hlong Hin Hmax Halloc existing prefix.
  pose proof (len_nonneg value) as Hv.
  pose proof (findSymbol_returns_uint64 _ _ _ _ _ Hfind) as Hoff.
  assert (Hfrom : from <> []).
  { intros ->. unfold len in Hlong. simpl in Hlong. lia. }
  assert (Hpad : padded size from = prefix) by (apply padded_long; lia).
  destruct (checkExisting_compare file offset size from) as [_ Hcheck];
    [lia | lia | exact Hin | exact Hmax | exact Halloc |].
  fold existing in Hcheck. rewrite Hpad in Hcheck.
  destruct (InjectStringSymbol_checked file w symbol value from offset size
              Hfind Hfit Hfrom Hin Hmax Halloc) as (_ & Hne & Heq).
  fold existing in Hne, Heq. rewrite Hpad in Hne, Heq.
  split; [exact Hpad|]. split; [|split; [|split]].
  - intros w' l s Hrun.
    destruct (decide (existing = prefix)) as [Hsame | Hdiff].
    + rewrite (Heq Hsame) in Hrun.
      destruct (copyAndInject (r file) w offset (padded size value)) as [w1 c].
      destruct (liftIO_kinds c) as [Hk | [Hk | [e Hk]]];
        rewrite Hk in Hrun; discriminate.
    + rewrite (Hne Hdiff) in Hrun. discriminate.
  - intros Hsame. split; [|exact (Heq Hsame)].
    rewrite Hcheck. destruct (decide (existing = prefix));
      [reflexivity | contradiction].
  - intros Hdiff. split; [|exact (Hne Hdiff)].
    rewrite Hcheck. destruct (decide (existing = prefix));
      [contradiction | reflexivity].
  - intros rest.
    assert (Hplen : length prefix = Z.to_nat size).
    { unfold prefix. apply length_take_le. unfold len in Hlong. lia. }
    assert (Hne' : prefix ++ rest <> []).
    { intros Hnil. apply (f_equal length) in Hnil.
      rewrite length_app, Hplen in Hnil. simpl in Hnil. lia. }
    assert (Hpad' : padded size (prefix ++ rest) = prefix).
    { rewrite padded_long by (rewrite len_app; unfold len; lia).
      rewrite take_app_le by lia. apply take_ge. lia. }
    destruct (InjectStringSymbol_checked file w symbol value (prefix ++ rest)
                offset size Hfind Hfit Hne' Hin Hmax Halloc)
      as (_ & Hne2 & Heq2).
    fold existing in Hne2, Heq2. rewrite Hpad' in Hne2, Heq2.
    destruct (decide (existing = prefix)) as [Hsame | Hdiff].
    + rewrite (Heq Hsame), (Heq2 Hsame). reflexivity.
    + rewrite (Hne Hdiff), (Hne2 Hdiff). reflexivity.
Qed.

Lemma InjectStringSymbol_long_prior_value_witness :
  padded 8 (bytesOf "efghijklmnop") = bytesOf "efghijkl" /\
  InjectStringSymbol sampleFile emptySink "delta" (bytesOf "v2")
    (bytesOf "efghijklmnop")
  = (mkWriter (patched sampleSource 48 (padded 8 (bytesOf "v2"))) None
       ErrShortWrite, Returns None) /\
  InjectStringSymbol sampleFile emptySink "delta" (bytesOf "v2")
    (bytesOf "efghijkXmnop")
  = (emptySink,
     Returns (Some (errContentsMismatch (bytesOf "efghijkl")
                      (bytesOf "efghijkX")))).
Proof.
  assert (Hfind : findSymbol sampleFile "delta" = (48, 8, None)) by reflexivity.
  destruct (InjectStringSymbol_long_prior_value sampleFile emptySink "delta"
              (bytesOf "v2") (bytesOf "efghijklmnop") 48 8 Hfind)
    as (Hpad & _ & Hpass & _).
  { vm_compute. discriminate. }
  { vm_compute. reflexivity. }
  { vm_compute. discriminate. }
  { vm_compute. discriminate. }
  { vm_compute. discriminate. }
  destruct (InjectStringSymbol_long_prior_value sampleFile emptySink "delta"
              (bytesOf "v2") (bytesOf "efghijkXmnop") 48 8 Hfind)
    as (_ & _ & _ & Hfail & _).
  { vm_compute. discriminate. }
  { vm_compute. reflexivity. }
  { vm_compute. discriminate. }
  { vm_compute. discriminate. }
  { vm_compute. discriminate. }
  split; [exact Hpad|]. split.
  - destruct Hpass as [_ Hrun]; [reflexivity|].
    rewrite Hrun. vm_compute. reflexivity.
  - destruct Hfail as [_ Hrun]; [vm_compute; discriminate|].
    exact Hrun.
Defined.

(** C8.  Once the symbol is resolved to [(offset, size)], the 64-bit
    injection fails with the type-mismatch error exactly when [size] is not
    8 (and then writes nothing); when [size] is 8 it is [copyAndInject] of
    eight bytes that are the little-endian encoding of the value: byte [i]
    is [value / 256^i mod 256], and together they denote the value. *)
Theorem InjectUint64Symbol_size (file : File) (w : Writer) (symbol : string)
    (value : Z) (offset size : Z) :
  findSymbol file symbol = (offset, size, None) ->
  (size <> 8 ->
   InjectUint64Symbol file w symbol value
   = (w, Returns (Some (errNotUint64 symbol size)))) /\
  (size = 8 ->
   let buf := PutUint64 (replicate 8 x00) value in
   InjectUint64Symbol file w symbol value
   = (let '(w', c) := copyAndInject (r file) w offset buf in (w', liftIO c)) /\
   buf = le_bytes 8 value /\
   length buf = 8%nat /\
   le_value buf = u64 value /\
   forall (w' : Writer) (s : string) (n : Z),
     InjectUint64Symbol file w symbol value
     <> (w', Returns (Some (errNotUint64 s n)))).
Proof.
  intros Hfind. split.
  - intros Hne. unfold InjectUint64Symbol. rewrite Hfind.
    replace (size =? 8) with false by (symmetry; apply Z.eqb_neq; exact Hne).
    reflexivity.
  - intros -> buf.
    assert (Hrun : InjectUint64Symbol file w symbol value
                   = (let '(w', c) := copyAndInject (r file) w offset buf in
                      (w', liftIO c))).
    { unfold InjectUint64Symbol. rewrite Hfind. reflexivity. }
    split; [exact Hrun|].
    split; [apply PutUint64_le_bytes|].
    split; [reflexivity|].
    split; [apply le_value_PutUint64|].
    intros w' s n Hbad. rewrite Hrun in Hbad.
    destruct (copyAndInject (r file) w offset buf) as [w1 c].
    destruct (liftIO_kinds c) as [Hk | [Hk | [e Hk]]];
      rewrite Hk in Hbad; discriminate.
Qed.

Lemma InjectUint64Symbol_size_witness :
  InjectUint64Symbol sampleFile emptySink "alpha" 258
  = (emptySink, Returns (Some (errNotUint64 "alpha" 10))) /\
  InjectUint64Symbol sampleFile emptySink "beta" 258
  = (mkWriter (patched sampleSource 18 (le_bytes 8 258)) None ErrShortWrite,
     Returns None) /\
  le_value (PutUint64 (replicate 8 x00) 258) = 258.
Proof.
  assert (Halpha : findSymbol sampleFile "alpha" = (8, 10, None)) by reflexivity.
  assert (Hbeta : findSymbol sampleFile "beta" = (18, 8, None)) by reflexivity.
  destruct (InjectUint64Symbol_size sampleFile emptySink "alpha" 258 8 10 Halpha)
    as [Hmismatch _].
  destruct (InjectUint64Symbol_size sampleFile emptySink "beta" 258 18 8 Hbeta)
    as [_ Hok].
  split; [apply Hmismatch; discriminate|].
  destruct (Hok eq_refl) as (Hrun & _ & _ & Hle & _).
  split; [rewrite Hrun; vm_compute; reflexivity|].
  rewrite Hle. reflexivity.
Defined.

(** ** OpenFile and DumpSymbols: the fallback chain *)

Section FormatDispatcherFacts.
Variable World : Type.
Variables elfSymbolsFromFile machoSymbolsFromFile peSymbolsFromFile
  : Extractor World.
Variables dumpElfSymbols dumpMachoSymbols dumpPESymbols : Dumper World.

Local Abbreviation OpenFile' :=
  (OpenFile World elfSymbolsFromFile machoSymbolsFromFile peSymbolsFromFile).
Local Abbreviation DumpSymbols' :=
  (DumpSymbols World dumpElfSymbols dumpMachoSymbols dumpPESymbols).

Lemma asCantParse_other (e : error) :
  (forall e', e <> cantParseError e') -> asCantParse (Some e) = None.
Proof.
  intros H. destruct e; try reflexivity. exfalso. exact (H e eq_refl).
Qed.

(** C5.  [OpenFile] and [DumpSymbols] run the readers in the order ELF,
    Mach-O, PE, each in the world the previous one left: a reader is run
    only if every reader before it failed with the wrong-format
    classification.  The first success is returned (by [OpenFile] with the
    source attached to the file), and so is the first failure that is not
    wrong-format, in the world left by the reader that gave it -- no
    further reader has run.  When all three fail with wrong-format, the
    error returned is the ELF one. *)
Theorem dispatch_fallback (r0 : ReaderAt) (st : World) :
  ((forall file st1,
      elfSymbolsFromFile r0 st = (inl file, st1) ->
      OpenFile' r0 st = (inl (mkFile r0 (Symbols file) (Sections file)), st1)) /\
   (forall e st1,
      elfSymbolsFromFile r0 st = (inr e, st1) ->
      (forall e', e <> cantParseError e') ->
      OpenFile' r0 st = (inr e, st1)) /\
   (forall e1 st1 file st2,
      elfSymbolsFromFile r0 st = (inr (cantParseError e1), st1) ->
      machoSymbolsFromFile r0 st1 = (inl file, st2) ->
      OpenFile' r0 st = (inl (mkFile r0 (Symbols file) (Sections file)), st2)) /\
   (forall e1 st1 e st2,
      elfSymbolsFromFile r0 st = (inr (cantParseError e1), st1) ->
      machoSymbolsFromFile r0 st1 = (inr e, st2) ->
      (forall e', e <> cantParseError e') ->
      OpenFile' r0 st = (inr e, st2)) /\
   (forall e1 st1 e2 st2 file st3,
      elfSymbolsFromFile r0 st = (inr (cantParseError e1), st1) ->
      machoSymbolsFromFile r0 st1 = (inr (cantParseError e2), st2) ->
      peSymbolsFromFile r0 st2 = (inl file, st3) ->
      OpenFile' r0 st = (inl (mkFile r0 (Symbols file) (Sections file)), st3)) /\
   (forall e1 st1 e2 st2 e st3,
      elfSymbolsFromFile r0 st = (inr (cantParseError e1), st1) ->
      machoSymbolsFromFile r0 st1 = (inr (cantParseError e2), st2) ->
      peSymbolsFromFile r0 st2 = (inr e, st3) ->
      (forall e', e <> cantParseError e') ->
      OpenFile' r0 st = (inr e, st3)) /\
   (forall e1 st1 e2 st2 e3 st3,
      elfSymbolsFromFile r0 st = (inr (cantParseError e1), st1) ->
      machoSymbolsFromFile r0 st1 = (inr (cantParseError e2), st2) ->
      peSymbolsFromFile r0 st2 = (inr (cantParseError e3), st3) ->
      OpenFile' r0 st = (inr (cantParseError e1), st3))) /\
  ((forall st1,
      dumpElfSymbols r0 st = (None, st1) ->
      DumpSymbols' r0 st = (None, st1)) /\
   (forall e st1,
      dumpElfSymbols r0 st = (Some e, st1) ->
      (forall e', e <> cantParseError e') ->
      DumpSymbols' r0 st = (Some e, st1)) /\
   (forall e1 st1 st2,
      dumpElfSymbols r0 st = (Some (cantParseError e1), st1) ->
      dumpMachoSymbols r0 st1 = (None, st2) ->
      DumpSymbols' r0 st = (None, st2)) /\
   (forall e1 st1 e st2,
      dumpElfSymbols r0 st = (Some (cantParseError e1), st1) ->
      dumpMachoSymbols r0 st1 = (Some e, st2) ->
      (forall e', e <> cantParseError e') ->
      DumpSymbols' r0 st = (Some e, st2)) /\
   (forall e1 st1 e2 st2 st3,
      dumpElfSymbols r0 st = (Some (cantParseError e1), st1) ->
      dumpMachoSymbols r0 st1 = (Some (cantParseError e2), st2) ->
      dumpPESymbols r0 st2 = (None, st3) ->
      DumpSymbols' r0 st = (None, st3)) /\
   (forall e1 st1 e2 st2 e st3,
      dumpElfSymbols r0 st = (Some (cantParseError e1), st1) ->
      dumpMachoSymbols r0 st1 = (Some (cantParseError e2), st2) ->
      dumpPESymbols r0 st2 = (Some e, st3) ->
      (forall e', e <> cantParseError e') ->
      DumpSymbols' r0 st = (Some e, st3)) /\
   (forall e1 st1 e2 st2 e3 st3,
      dumpElfSymbols r0 st = (Some (cantParseError e1), st1) ->
      dumpMachoSymbols r0 st1 = (Some (cantParseError e2), st2) ->
      dumpPESymbols r0 st2 = (Some (cantParseError e3), st3) ->
      DumpSymbols' r0 st = (Some (cantParseError e1), st3))).
Proof.
  split.
  - unfold OpenFile. repeat split.
    + intros file st1 ->. reflexivity.
    + intros e st1 -> He. simpl errOf. rewrite (asCantParse_other _ He).
      reflexivity.
    + intros e1 st1 file st2 -> ->. reflexivity.
    + intros e1 st1 e st2 -> -> He. simpl errOf.
      rewrite (asCantParse_other _ He). reflexivity.
    + intros e1 st1 e2 st2 file st3 -> -> ->. reflexivity.
    + intros e1 st1 e2 st2 e st3 -> -> -> He. simpl errOf.
      rewrite (asCantParse_other _ He). reflexivity.
    + intros e1 st1 e2 st2 e3 st3 -> -> ->. reflexivity.
  - unfold DumpSymbols. repeat split.
    + intros st1 ->. reflexivity.
    + intros e st1 -> He. rewrite (asCantParse_other _ He). reflexivity.
    + intros e1 st1 st2 -> ->. reflexivity.
    + intros e1 st1 e st2 -> -> He. simpl asCantParse at 1.
      rewrite (asCantParse_other _ He). reflexivity.
    + intros e1 st1 e2 st2 st3 -> -> ->. reflexivity.
    + intros e1 st1 e2 st2 e st3 -> -> -> He. simpl asCantParse at 1.
      simpl asCantParse at 1.
      rewrite (asCantParse_other _ He). reflexivity.
    + intros e1 st1 e2 st2 e3 st3 -> -> ->. reflexivity.
Qed.
End FormatDispatcherFacts.

Lemma dispatch_fallback_witness :
  (* a Mach-O input: the ELF reader declines, the Mach-O reader accepts *)
  OpenFile (list string)
    (loggedReader "elf" (inr notElf)) (loggedReader "macho" (inl parsedFile))
    (loggedReader "pe" (inr notPE)) sampleSource []
  = (inl sampleFile, ["elf"; "macho"]%string) /\
  (* a corrupt ELF input: nothing else is tried *)
  OpenFile (list string)
    (loggedReader "elf" (inr corrupt)) (loggedReader "macho" (inl parsedFile))
    (loggedReader "pe" (inl parsedFile)) sampleSource []
  = (inr corrupt, ["elf"]%string) /\
  (* garbage in all three formats: the ELF reader's error *)
  OpenFile (list string)
    (loggedReader "elf" (inr notElf)) (loggedReader "macho" (inr notMachO))
    (loggedReader "pe" (inr notPE)) sampleSource []
  = (inr notElf, ["elf"; "macho"; "pe"]%string) /\
  DumpSymbols (list string)
    (loggedDumper "elf" (Some notElf)) (loggedDumper "macho" (Some notMachO))
    (loggedDumper "pe" (Some corrupt)) sampleSource []
  = (Some corrupt, ["elf"; "macho"; "pe"]%string) /\
  DumpSymbols (list string)
    (loggedDumper "elf" (Some notElf)) (loggedDumper "macho" (Some notMachO))
    (loggedDumper "pe" (Some notPE)) sampleSource []
  = (Some notElf, ["elf"; "macho"; "pe"]%string).
Proof.
  split; [|split; [|split; [|split]]].
  - destruct (dispatch_fallback (list string)
                (loggedReader "elf" (inr notElf))
                (loggedReader "macho" (inl parsedFile))
                (loggedReader "pe" (inr notPE))
                (loggedDumper "elf" None) (loggedDumper "macho" None)
                (loggedDumper "pe" None) sampleSource [])
      as ((_ & _ & H & _) & _).
    apply (H (parseError "bad ELF magic") ["elf"%string] parsedFile);
      reflexivity.
  - destruct (dispatch_fallback (list string)
                (loggedReader "elf" (inr corrupt))
                (loggedReader "macho" (inl parsedFile))
                (loggedReader "pe" (inl parsedFile))
                (loggedDumper "elf" None) (loggedDumper "macho" None)
                (loggedDumper "pe" None) sampleSource [])
      as ((_ & H & _) & _).
    apply H; [reflexivity | discriminate].
  - destruct (dispatch_fallback (list string)
                (loggedReader "elf" (inr notElf))
                (loggedReader "macho" (inr notMachO))
                (loggedReader "pe" (inr notPE))
                (loggedDumper "elf" None) (loggedDumper "macho" None)
                (loggedDumper "pe" None) sampleSource [])
      as ((_ & _ & _ & _ & _ & _ & H) & _).
    apply (H _ ["elf"%string] (parseError "bad Mach-O magic")
             ["elf"; "macho"]%string (parseError "bad PE magic"));
      reflexivity.
  - destruct (dispatch_fallback (list string)
                (loggedReader "elf" (inr notElf))
                (loggedReader "macho" (inr notMachO))
                (loggedReader "pe" (inr notPE))
                (loggedDumper "elf" (Some notElf))
                (loggedDumper "macho" (Some notMachO))
                (loggedDumper "pe" (Some corrupt)) sampleSource [])
      as (_ & (_ & _ & _ & _ & _ & H & _)).
    apply (H (parseError "bad ELF magic") ["elf"%string]
             (parseError "bad Mach-O magic") ["elf"; "macho"]%string);
      [reflexivity | reflexivity | reflexivity | discriminate].
  - destruct (dispatch_fallback (list string)
                (loggedReader "elf" (inr notElf))
                (loggedReader "macho" (inr notMachO))
                (loggedReader "pe" (inr notPE))
                (loggedDumper "elf" (Some notElf))
                (loggedDumper "macho" (Some notMachO))
                (loggedDumper "pe" (Some notPE)) sampleSource [])
      as (_ & (_ & _ & _ & _ & _ & _ & H)).
    apply (H _ ["elf"%string] (parseError "bad Mach-O magic")
             ["elf"; "macho"]%string (parseError "bad PE magic"));
      reflexivity.
Defined.

(** ** More on findSymbol *)

(** Either some symbol is the first with the name, or none has it. *)
Lemma firstNamed_or_absent (symbols : list Sym.t) (name : string) :
  (exists i m, firstNamed symbols name i m) \/
  (forall s, s ∈ symbols -> Sym.Name s <> name).
Proof.
  induction symbols as [|s symbols IH].
  - right. intros s Hin. inversion Hin.
  - destruct (String.eqb (Sym.Name s) name) eqn:Hs.
    + left. exists 0%nat, s. split; [reflexivity|]. split.
      * apply String.eqb_eq. exact Hs.
      * intros j s' Hj. lia.
    + apply String.eqb_neq in Hs.
      destruct IH as [(i & m & Hi & Hm & Hmin) | Habs].
      * left. exists (S i), m. split; [exact Hi|]. split; [exact Hm|].
        intros [|j] s' Hj Hlook; simpl in Hlook.
        -- injection Hlook as <-. exact Hs.
        -- apply (Hmin j s'); [lia | exact Hlook].
      * right. intros s' Hin. apply elem_of_cons in Hin as [-> | Hin];
          [exact Hs | apply Habs; exact Hin].
Qed.

Lemma findSymbol_success_first (file : File) (name : string)
    (offset size : Z) :
  findSymbol file name = (offset, size, None) ->
  exists i m, firstNamed (Symbols file) name i m.
Proof.
  intros Hres.
  destruct (firstNamed_or_absent (Symbols file) name) as [H | Habs];
    [exact H|].
  rewrite (findSymbol_absent _ _ Habs) in Hres. discriminate.
Qed.

(** X1.  A successful resolution reports either the recorded size of the first
    symbol with the name, or, when none is recorded, an inferred size of at
    least 1 and at most 4096 bytes -- never an empty or a larger range. *)
Theorem findSymbol_size_bounds (file : File) (name : string)
    (offset size : Z) :
  unsignedSymbols file ->
  findSymbol file name = (offset, size, None) ->
  exists (i : nat) (m : Sym.t),
    firstNamed (Symbols file) name i m /\
    ((Sym.Size m <> 0 /\ size = Sym.Size m) \/
     (Sym.Size m = 0 /\ 1 <= size <= 4096 /\
      size = endAddress m (drop (S i) (Symbols file)) - Sym.Addr m)) /\
    1 <= size.
Proof.
  intros Hwf Hres.
  destruct (findSymbol_success_first _ _ _ _ Hres) as (i & m & Hfirst).
  exists i, m. split; [exact Hfirst|].
  assert (Hm : 0 <= Sym.Addr m /\ 0 <= Sym.Size m).
  { apply Hwf. destruct Hfirst as (Hi & _ & _).
    apply list_elem_of_lookup. exists i. exact Hi. }
  rewrite (findSymbol_resolved _ _ _ _ Hfirst) in Hres.
  destruct (Z.eqb_spec (Sym.Size m) 0) as [Hz | Hnz].
  - set (end_ := endAddress m (drop (S i) (Symbols file))) in *.
    destruct (Z.leb_spec end_ (Sym.Addr m)) as [Hle | Hgt];
      [discriminate|].
    rewrite Z.gtb_ltb in Hres.
    destruct (Z.ltb_spec (u64 (Sym.Addr m + 4096)) end_) as [Hbig | Hok];
      [discriminate|].
    simpl in Hres. injection Hres as _ <-.
    pose proof (u64_le (Sym.Addr m + 4096)) as Hu.
    rewrite (u64_small (end_ - Sym.Addr m)) by lia.
    split; [right; split; [exact Hz | split; [lia | reflexivity]] | lia].
  - injection Hres as _ <-.
    split; [left; split; [exact Hnz | reflexivity] | lia].
Qed.

Lemma sampleFile_unsigned : unsignedSymbols sampleFile.
Proof.
  intros s Hin.
  repeat (apply elem_of_cons in Hin as [-> | Hin]; [simpl; lia|]).
  inversion Hin.
Defined.

Lemma findSymbol_size_bounds_witness :
  exists (i : nat) (m : Sym.t),
    firstNamed (Symbols sampleFile) "gamma" i m /\
    ((Sym.Size m <> 0 /\ 12 = Sym.Size m) \/
     (Sym.Size m = 0 /\ 1 <= 12 <= 4096 /\
      12 = endAddress m (drop (S i) (Symbols sampleFile)) - Sym.Addr m)) /\
    1 <= 12.
Proof.
  apply (findSymbol_size_bounds sampleFile "gamma" 60 12).
  - exact sampleFile_unsigned.
  - reflexivity.
Defined.

Lemma firstNamed_app (pre rest : list Sym.t) (name : string) (i : nat)
    (m : Sym.t) :
  (forall s, s ∈ pre -> Sym.Name s <> name) ->
  firstNamed rest name i m ->
  firstNamed (pre ++ rest) name (length pre + i) m.
Proof.
  intros Hpre (Hi & Hname & Hmin).
  split; [|split; [exact Hname|]].
  - rewrite lookup_app_r by lia.
    replace (length pre + i - length pre)%nat with i by lia. exact Hi.
  - intros j s Hj Hlook.
    destruct (Nat.lt_ge_cases j (length pre)) as [Hlt | Hge].
    + rewrite lookup_app_l in Hlook by exact Hlt.
      apply Hpre. apply list_elem_of_lookup. exists j. exact Hlook.
    + rewrite lookup_app_r in Hlook by exact Hge.
      apply (Hmin (j - length pre)%nat s); [lia | exact Hlook].
Qed.

Lemma findSymbol_from_first (r1 r2 : ReaderAt)
    (secs1 secs2 : list (pointer Sec.t)) (pre rest : list Sym.t)
    (name : string) :
  (forall s, s ∈ pre -> Sym.Name s <> name) ->
  findSymbol (mkFile r1 (pre ++ rest) secs1) name
  = findSymbol (mkFile r2 rest secs2) name.
Proof.
  intros Hpre.
  destruct (firstNamed_or_absent rest name) as [(i & m & Hfirst) | Habs].
  - rewrite (findSymbol_resolved (mkFile r2 rest secs2) name i m Hfirst).
    rewrite (findSymbol_resolved (mkFile r1 (pre ++ rest) secs1) name
               (length pre + i) m (firstNamed_app _ _ _ _ _ Hpre Hfirst)).
    simpl Symbols.
    replace (drop (S (length pre + i)) (pre ++ rest)) with (drop (S i) rest);
      [reflexivity|].
    replace (S (length pre + i)) with (length pre + S i)%nat by lia.
    rewrite drop_app_add. reflexivity.
  - rewrite !findSymbol_absent; [reflexivity | exact Habs |].
    simpl. intros s Hin. apply elem_of_app in Hin as [Hin | Hin];
      [apply Hpre | apply Habs]; exact Hin.
Qed.

(** X2.  The outcome of [findSymbol] depends on the symbol list alone, and in it
    only on the first symbol with the name and the symbols after it:
    symbols with other names in front of it, the byte source and the section
    list make no difference. *)
Theorem findSymbol_ignores_prefix (r1 r2 : ReaderAt)
    (secs1 secs2 : list (pointer Sec.t)) (pre rest : list Sym.t)
    (name : string) :
  (forall s, s ∈ pre -> Sym.Name s <> name) ->
  findSymbol (mkFile r1 (pre ++ rest) secs1) name
  = findSymbol (mkFile r2 rest secs2) name.
Proof. apply findSymbol_from_first. Qed.

Lemma findSymbol_ignores_prefix_witness :
  findSymbol sampleFile "gamma"
  = findSymbol (mkFile [] (drop 2 sampleSymbols) []) "gamma".
Proof.
  apply (findSymbol_ignores_prefix sampleSource [] [dataSection; rodataSection]
           [] (take 2 sampleSymbols) (drop 2 sampleSymbols) "gamma").
  intros s Hin.
  repeat (apply elem_of_cons in Hin as [-> | Hin]; [discriminate|]).
  inversion Hin.
Defined.

(** Reading the patched bytes back as the source does not change where a
    symbol resolves. *)
Lemma findSymbol_reopened (file : File) (out : ReaderAt) (name : string) :
  findSymbol (reopened file out) name = findSymbol file name.
Proof.
  destruct file as [r0 symbols secs]. unfold reopened. simpl.
  apply (findSymbol_from_first out r0 secs secs [] symbols name).
  intros s Hin. inversion Hin.
Qed.

(** X3.  Every failure of [findSymbol] is one of two, and returns [maxUint64]
    for both offset and size: the symbol-not-found error, when no symbol has
    the name; or the end-address error, which only a first match without a
    recorded size can get and which carries that symbol's address and the
    end address inferred for it.  A symbol with a recorded size always
    resolves. *)
Theorem findSymbol_failures (file : File) (name : string) (offset size : Z)
    (e : error) :
  findSymbol file name = (offset, size, Some e) ->
  offset = maxUint64 /\ size = maxUint64 /\
  ((e = errSymbolNotFound /\
    forall s, s ∈ Symbols file -> Sym.Name s <> name) \/
   (exists (i : nat) (m : Sym.t),
      firstNamed (Symbols file) name i m /\
      Sym.Size m = 0 /\
      e = errSymbolEnd (Sym.Addr m)
            (endAddress m (drop (S i) (Symbols file))))).
Proof.
  intros Hres.
  destruct (firstNamed_or_absent (Symbols file) name)
    as [(i & m & Hfirst) | Habs].
  - rewrite (findSymbol_resolved _ _ _ _ Hfirst) in Hres.
    destruct (Z.eqb_spec (Sym.Size m) 0) as [Hz | Hnz]; [|discriminate].
    match type of Hres with
    | (if ?c then _ else _) = _ => destruct c; [|discriminate]
    end.
    injection Hres as <- <- <-.
    split; [reflexivity|]. split; [reflexivity|].
    right. exists i, m. split; [exact Hfirst|]. split; [exact Hz | reflexivity].
  - rewrite (findSymbol_absent _ _ Habs) in Hres.
    injection Hres as <- <- <-.
    split; [reflexivity|]. split; [reflexivity|]. left. split; [reflexivity|].
    exact Habs.
Qed.

Lemma findSymbol_failures_witness :
  2 ^ 64 - 1 = maxUint64 /\
  exists (i : nat) (m : Sym.t),
    firstNamed (Symbols highFile) "first" i m /\ Sym.Size m = 0.
Proof.
  destruct (findSymbol_failures highFile "first" maxUint64 maxUint64
              (errSymbolEnd (2 ^ 64 - 100) (2 ^ 64 - 50)))
    as (Ho & _ & [[Hbad _] | (i & m & Hfirst & Hz & _)]).
  - vm_compute. reflexivity.
  - discriminate Hbad.
  - split; [reflexivity|]. exists i, m. split; assumption.
Defined.

(** ** More on copyAndInject *)

Lemma patched_take (r0 : ReaderAt) (offset : Z) (buf : list byte) :
  0 <= offset -> offset + len buf <= len r0 ->
  take (Z.to_nat offset) (patched r0 offset buf) = take (Z.to_nat offset) r0.
Proof.
  unfold patched, len. intros Hoff Hin.
  apply take_app_length'. rewrite length_take. lia.
Qed.

Lemma patched_drop (r0 : ReaderAt) (offset : Z) (buf : list byte) (n : nat) :
  0 <= offset -> offset + len buf <= len r0 ->
  n = length buf ->
  drop (Z.to_nat offset + n) (patched r0 offset buf)
  = drop (Z.to_nat offset + n) r0.
Proof.
  unfold patched, len. intros Hoff Hin ->.
  rewrite drop_app_add' by (rewrite length_take; lia).
  rewrite drop_app_length. reflexivity.
Qed.

(** The patched range of the output holds the replacement. *)
Lemma window_patched (r0 : ReaderAt) (offset : Z) (buf : list byte) :
  0 <= offset -> offset + len buf <= len r0 ->
  window (patched r0 offset buf) offset (offset + len buf) = buf.
Proof.
  unfold window, patched, len. intros Hoff Hin.
  rewrite drop_app_length' by (rewrite length_take; lia).
  replace (Z.to_nat (offset + Z.of_nat (length buf) - offset))
    with (length buf) by lia.
  apply take_app_length.
Qed.

(** Patching the same range again replaces the first replacement. *)
Lemma patched_patched (r0 : ReaderAt) (offset : Z) (buf buf' : list byte) :
  0 <= offset -> offset + len buf <= len r0 -> length buf' = length buf ->
  patched (patched r0 offset buf) offset buf' = patched r0 offset buf'.
Proof.
  intros Hoff Hin Hlen. unfold patched at 1.
  rewrite patched_take by assumption.
  rewrite patched_drop by (try assumption; lia).
  reflexivity.
Qed.

(** Patching a range with the bytes it already holds changes nothing. *)
Lemma patched_self (r0 : ReaderAt) (offset size : Z) :
  0 <= offset -> 0 <= size -> offset + size <= len r0 ->
  patched r0 offset (window r0 offset (offset + size)) = r0.
Proof.
  unfold patched, window, len. intros Hoff Hsize Hin.
  replace (Z.to_nat (offset + size - offset)) with (Z.to_nat size) by lia.
  rewrite length_take, length_drop.
  replace (Z.to_nat offset + Z.to_nat size `min` (length r0 - Z.to_nat offset))%nat
    with (Z.to_nat offset + Z.to_nat size)%nat by lia.
  rewrite app_assoc, take_take_drop. apply take_drop.
Qed.

(** In-range patch into a sink without a limit: the outcome in full. *)
Lemma copyAndInject_patched (r0 : ReaderAt) (w : Writer) (offset : Z)
    (buf : list byte) :
  room w = None ->
  0 <= offset -> offset + len buf <= len r0 -> len r0 <= maxInt64 ->
  copyAndInject r0 w offset buf
  = (mkWriter (written w ++ patched r0 offset buf) None (fault w),
     Returns None).
Proof.
  intros Hroom Hoff Hin Hmax.
  rewrite copyAndInject_unlimited by (try assumption; lia).
  rewrite stream_patched by assumption. reflexivity.
Qed.

(** X4.  Injection is idempotent and can be undone.  After a successful patch of
    an in-range buffer the output [out] has the length of the source;
    patching [out] again with the same buffer reproduces [out], and patching
    it with the bytes the source had in that range reproduces the source. *)
Theorem copyAndInject_again (r0 : ReaderAt) (w1 w1' w2 : Writer) (offset : Z)
    (buf : list byte) :
  0 <= offset -> offset + len buf <= len r0 -> len r0 <= maxInt64 ->
  room w2 = None ->
  copyAndInject r0 w1 offset buf = (w1', Returns None) ->
  exists out : list byte,
    written w1' = written w1 ++ out /\
    len out = len r0 /\
    copyAndInject out w2 offset buf
    = (mkWriter (written w2 ++ out) None (fault w2), Returns None) /\
    copyAndInject out w2 offset (window r0 offset (offset + len buf))
    = (mkWriter (written w2 ++ r0) None (fault w2), Returns None).
Proof.
  intros Hoff Hin Hmax Hroom Hrun.
  pose proof (len_nonneg buf) as Hbuf.
  exists (patched r0 offset buf).
  assert (Hlen : len (patched r0 offset buf) = len r0)
    by (apply length_patched; assumption).
  split; [apply copyAndInject_success; assumption|].
  split; [exact Hlen|]. split.
  - rewrite copyAndInject_patched by (try assumption; lia).
    rewrite patched_patched by (try assumption; reflexivity). reflexivity.
  - assert (Hw : len (window r0 offset (offset + len buf)) = len buf).
    { rewrite len_window by lia. lia. }
    rewrite copyAndInject_patched by (try assumption; lia).
    rewrite patched_patched
      by (try assumption; apply Nat2Z.inj; exact Hw).
    rewrite patched_self by lia. reflexivity.
Qed.

Lemma copyAndInject_again_witness :
  exists out : list byte,
    out = bytesOf "abWXYZgh" /\
    len out = 8 /\
    copyAndInject out emptySink 2 (bytesOf "WXYZ")
    = (mkWriter ([] ++ out) None ErrShortWrite, Returns None) /\
    copyAndInject out emptySink 2 (bytesOf "cdef")
    = (mkWriter (bytesOf "abcdefgh") None ErrShortWrite, Returns None).
Proof.
  destruct (copyAndInject_again (bytesOf "abcdefgh") emptySink
              (mkWriter (bytesOf "abWXYZgh") None ErrShortWrite) emptySink 2
              (bytesOf "WXYZ"))
    as (out & Hout & Hlen & Hsame & Hundo).
  - lia.
  - vm_compute. discriminate.
  - vm_compute. discriminate.
  - reflexivity.
  - vm_compute. reflexivity.
  - exists out. simpl in Hout.
    split; [rewrite <- Hout; reflexivity|].
    split; [exact Hlen|]. split; [exact Hsame | exact Hundo].
Defined.

(** X5.  A sink that fails.  For an in-range patch into a sink with room for [k]
    bytes: when the source has at most [k] bytes the patch succeeds; when it
    has more, exactly the first [k] bytes of the patched source reach the
    sink and the sink's error is returned -- as [io.ErrUnexpectedEOF] when
    that error is [io.EOF]. *)
Theorem copyAndInject_failing_sink (r0 : ReaderAt) (out0 : list byte)
    (k : nat) (f : ioerr) (offset : Z) (buf : list byte) :
  0 <= offset -> offset + len buf <= len r0 -> len r0 <= maxInt64 ->
  copyAndInject r0 (mkWriter out0 (Some k) f) offset buf
  = if (length r0 <=? k)%nat
    then (mkWriter (out0 ++ patched r0 offset buf)
            (Some (k - length r0)%nat) f, Returns None)
    else (mkWriter (out0 ++ take k (patched r0 offset buf)) (Some 0%nat) f,
          Returns (unexpectedEOF (Some f))).
Proof.
  intros Hoff Hin Hmax.
  pose proof (len_nonneg buf) as Hbuf.
  rewrite copyAndInject_stream by lia.
  rewrite stream_patched by assumption.
  pose proof (length_patched r0 offset buf Hoff Hin) as Hlen.
  unfold len in Hlen. apply Nat2Z.inj in Hlen.
  unfold WriteAll, Write. simpl. rewrite Hlen.
  destruct (length r0 <=? k)%nat; reflexivity.
Qed.

Lemma copyAndInject_failing_sink_witness :
  copyAndInject (bytesOf "abcdefgh") (mkWriter [] (Some 3%nat) EOF) 2
    (bytesOf "WXYZ")
  = (mkWriter (bytesOf "abW") (Some 0%nat) EOF, Returns (Some ErrUnexpectedEOF)).
Proof.
  rewrite (copyAndInject_failing_sink (bytesOf "abcdefgh") [] 3 EOF 2
             (bytesOf "WXYZ")).
  - reflexivity.
  - lia.
  - vm_compute. discriminate.
  - vm_compute. discriminate.
Defined.

(** X6.  The length of the output for any source, with a sink that does not
    fail: it is the length of the source exactly when the patched range lies
    within the source or the buffer is empty, and otherwise it is longer --
    the output is never shorter than the source. *)
Theorem copyAndInject_output_length (r0 : ReaderAt) (w : Writer)
    (offset : Z) (buf : list byte) :
  room w = None ->
  0 <= offset -> offset + len buf <= maxInt64 -> len r0 <= maxInt64 ->
  exists out : list byte,
    copyAndInject r0 w offset buf
    = (mkWriter (written w ++ out) None (fault w), Returns None) /\
    len r0 <= len out /\
    (len out = len r0 <-> offset + len buf <= len r0 \/ buf = []).
Proof.
  intros Hroom Hoff Hfit Hmax.
  pose proof (len_nonneg buf) as Hbuf.
  exists (window r0 0 offset ++ buf ++ window r0 (offset + len buf) maxInt64).
  split; [apply copyAndInject_unlimited; assumption|].
  rewrite !len_app, !len_window by lia.
  assert (Hnil : buf = [] <-> len buf = 0).
  { unfold len. destruct buf; simpl; split; intros H;
      try reflexivity; try discriminate; lia. }
  rewrite Hnil. pose proof (len_nonneg r0) as Hr.
  split; [lia | split; lia].
Qed.

Lemma copyAndInject_output_length_witness :
  exists out : list byte,
    copyAndInject (bytesOf "abcdef") emptySink 4 (bytesOf "WXYZ")
    = (mkWriter ([] ++ out) None ErrShortWrite, Returns None) /\
    len (bytesOf "abcdef") <= len out /\
    (len out = len (bytesOf "abcdef") <->
     4 + len (bytesOf "WXYZ") <= len (bytesOf "abcdef") \/ bytesOf "WXYZ" = []).
Proof.
  apply (copyAndInject_output_length (bytesOf "abcdef") emptySink 4
           (bytesOf "WXYZ")).
  - reflexivity.
  - lia.
  - vm_compute. discriminate.
  - vm_compute. discriminate.
Defined.

(** ** More on the injectors *)

(** What a successful string injection leaves in the sink. *)
Lemma InjectStringSymbol_success_output (file : File) (w w' : Writer)
    (symbol : string) (value from : list byte) (offset size : Z) :
  findSymbol file symbol = (offset, size, None) ->
  len value + 1 <= size ->
  offset + size <= len (r file) -> len (r file) <= maxInt64 ->
  InjectStringSymbol file w symbol value from = (w', Returns None) ->
  written w' = written w ++ patched (r file) offset (padded size value).
Proof.
  intros Hfind Hfit Hin Hmax Hrun.
  pose proof (len_nonneg value) as Hv.
  pose proof (findSymbol_returns_uint64 _ _ _ _ _ Hfind) as Hoff.
  rewrite (InjectStringSymbol_fits _ _ _ _ _ _ _ Hfind Hfit) in Hrun.
  destruct (match from with
            | [] => None
            | _ :: _ => checkExisting file offset size from
            end) as [c|] eqn:Hcheck.
  - destruct from as [|b from]; [discriminate|].
    destruct (checkExisting_kinds _ _ _ _ _ Hcheck)
      as [-> | [[e ->] | (a & b' & ->)]]; discriminate.
  - destruct (make size); [|discriminate].
    destruct (copyAndInject (r file) w offset (padded size value))
      as [w1 c] eqn:Hc.
    injection Hrun as -> Hlift. apply liftIO_success in Hlift. subst c.
    apply (copyAndInject_success _ _ _ _ _ (proj1 Hoff)) in Hc;
      [exact Hc | rewrite len_padded by lia; lia | exact Hmax].
Qed.

(** X8.  String injection succeeds.  Without an expected prior value, with a
    sink that does not fail, a value that fits and a source that holds the
    symbol's bytes, [InjectStringSymbol] returns [nil] and the sink receives
    the source with the zero-padded value in the symbol's place -- unless the
    symbol is larger than the allocation limit, when [make] panics before
    anything is written. *)
Theorem InjectStringSymbol_succeeds (file : File) (w : Writer)
    (symbol : string) (value : list byte) (offset size : Z) :
  findSymbol file symbol = (offset, size, None) ->
  len value + 1 <= size ->
  offset + size <= len (r file) -> len (r file) <= maxInt64 ->
  room w = None ->
  InjectStringSymbol file w symbol value []
  = if size <=? maxAlloc
    then (mkWriter (written w ++ patched (r file) offset (padded size value))
            None (fault w), Returns None)
    else (w, Panics).
Proof.
  intros Hfind Hfit Hin Hmax Hroom.
  pose proof (len_nonneg value) as Hv.
  pose proof (findSymbol_returns_uint64 _ _ _ _ _ Hfind) as Hoff.
  rewrite (InjectStringSymbol_fits _ _ _ _ _ _ _ Hfind Hfit).
  destruct (Z.leb_spec size maxAlloc) as [Halloc | Hlarge].
  - rewrite make_fits by exact Halloc.
    rewrite copyAndInject_patched;
      [reflexivity | exact Hroom | lia | rewrite len_padded by lia; lia
      | exact Hmax].
  - rewrite make_too_large by exact Hlarge. reflexivity.
Qed.

Lemma InjectStringSymbol_succeeds_witness :
  InjectStringSymbol sampleFile emptySink "delta" (bytesOf "v2") []
  = (mkWriter ([] ++ patched sampleSource 48 (padded 8 (bytesOf "v2"))) None
       ErrShortWrite, Returns None).
Proof.
  rewrite (InjectStringSymbol_succeeds sampleFile emptySink "delta"
             (bytesOf "v2") 48 8).
  - reflexivity.
  - reflexivity.
  - vm_compute. discriminate.
  - vm_compute. discriminate.
  - vm_compute. discriminate.
  - reflexivity.
Defined.

(** X9.  Round trip of a 64-bit value.  With a sink that does not fail and a
    source that holds the 8-byte symbol, [InjectUint64Symbol] returns [nil];
    the output has the length of the source, and the eight bytes at the
    symbol's offset of the output, read as a little-endian number, are the
    injected value. *)
Theorem InjectUint64Symbol_round_trip (file : File) (w : Writer)
    (symbol : string) (value : Z) (offset : Z) :
  findSymbol file symbol = (offset, 8, None) ->
  offset + 8 <= len (r file) -> len (r file) <= maxInt64 ->
  room w = None ->
  0 <= value < 2 ^ 64 ->
  exists out : list byte,
    InjectUint64Symbol file w symbol value
    = (mkWriter (written w ++ out) None (fault w), Returns None) /\
    len out = len (r file) /\
    le_value (window out offset (offset + 8)) = value.
Proof.
  intros Hfind Hin Hmax Hroom Hvalue.
  pose proof (findSymbol_returns_uint64 _ _ _ _ _ Hfind) as Hoff.
  set (buf := PutUint64 (replicate 8 x00) value).
  assert (Hbuf : len buf = 8) by reflexivity.
  exists (patched (r file) offset buf).
  split; [|split].
  - unfold InjectUint64Symbol. rewrite Hfind. cbv beta iota.
    change (negb (8 =? 8)) with false.
    change (make 8) with (Some (replicate 8 x00)).
    cbv beta iota. fold buf.
    rewrite copyAndInject_patched; [reflexivity | exact Hroom | lia | lia
                                   | exact Hmax].
  - apply length_patched; lia.
  - rewrite <- Hbuf at 1. rewrite window_patched by lia.
    unfold buf. rewrite le_value_PutUint64. apply u64_small. exact Hvalue.
Qed.

Lemma InjectUint64Symbol_round_trip_witness :
  exists out : list byte,
    InjectUint64Symbol sampleFile emptySink "beta" 258
    = (mkWriter ([] ++ out) None ErrShortWrite, Returns None) /\
    len out = len sampleSource /\
    le_value (window out 18 (18 + 8)) = 258.
Proof.
  apply (InjectUint64Symbol_round_trip sampleFile emptySink "beta" 258 18).
  - reflexivity.
  - vm_compute. discriminate.
  - vm_compute. discriminate.
  - reflexivity.
  - lia.
Defined.

(** X10.  Validation comes before output.  Whenever [InjectStringSymbol] or
    [InjectUint64Symbol] returns an error that is not an I/O error -- symbol
    not found, implausible symbol bound, value too long, wrong size,
    contents mismatch -- nothing has been written to the sink. *)
Theorem inject_errors_before_output (file : File) (w : Writer)
    (symbol : string) (value from : list byte) (v : Z) (e : error) :
  (forall io : ioerr, e <> ioError io) ->
  (forall w', InjectStringSymbol file w symbol value from
              = (w', Returns (Some e)) -> w' = w) /\
  (forall w', InjectUint64Symbol file w symbol v
              = (w', Returns (Some e)) -> w' = w).
Proof.
  intros Hnoio. split; intros w'.
  - unfold InjectStringSymbol.
    destruct (findSymbol file symbol) as [[offset size] [err|]].
    { intros H. injection H as <- _. reflexivity. }
    destruct (len value + 1 >? size).
    { intros H. injection H as <- _. reflexivity. }
    destruct (match from with
              | [] => None
              | _ :: _ => checkExisting file offset size from
              end) as [c|].
    { intros H. injection H as <- _. reflexivity. }
    destruct (make size) as [buf|].
    + destruct (copyAndInject (r file) w offset (copy buf value)) as [w1 c].
      intros H. injection H as _ Hc. exfalso.
      destruct (liftIO_kinds c) as [Hk | [Hk | [io Hk]]];
        rewrite Hk in Hc; try discriminate.
      injection Hc as <-. exact (Hnoio io eq_refl).
    + discriminate.
  - unfold InjectUint64Symbol.
    destruct (findSymbol file symbol) as [[offset size] [err|]].
    { intros H. injection H as <- _. reflexivity. }
    destruct (negb (size =? 8)).
    { intros H. injection H as <- _. reflexivity. }
    destruct (make 8) as [buf|].
    + destruct (copyAndInject (r file) w offset (PutUint64 buf v)) as [w1 c].
      intros H. injection H as _ Hc. exfalso.
      destruct (liftIO_kinds c) as [Hk | [Hk | [io Hk]]];
        rewrite Hk in Hc; try discriminate.
      injection Hc as <-. exact (Hnoio io eq_refl).
    + discriminate.
Qed.

Lemma inject_errors_before_output_witness :
  fst (InjectUint64Symbol sampleFile (smallSink 3) "alpha" 7) = smallSink 3.
Proof.
  destruct (inject_errors_before_output sampleFile (smallSink 3) "alpha"
              [] [] 7 (errNotUint64 "alpha" 10)) as [_ H].
  - discriminate.
  - apply H. reflexivity.
Defined.

(** X11.  Injections chain.  After a successful injection of a non-empty [value],
    the output -- read back with the same symbol table -- passes the
    integrity check of a second injection that names [value] as the expected
    prior contents: the second injection goes on to write its own value. *)
Theorem InjectStringSymbol_chain (file : File) (w1 w1' w2 : Writer)
    (symbol : string) (value from value2 : list byte) (offset size : Z) :
  findSymbol file symbol = (offset, size, None) ->
  len value + 1 <= size -> len value2 + 1 <= size ->
  value <> [] ->
  offset + size <= len (r file) -> len (r file) <= maxInt64 ->
  InjectStringSymbol file w1 symbol value from = (w1', Returns None) ->
  exists out : list byte,
    written w1' = written w1 ++ out /\
    len out = len (r file) /\
    InjectStringSymbol (reopened file out) w2 symbol value2 value
    = (let '(w', c) := copyAndInject out w2 offset (padded size value2) in
       (w', liftIO c)).
Proof.
  intros Hfind Hfit Hfit2 Hne Hin Hmax Hrun.
  pose proof (len_nonneg value) as Hv.
  pose proof (findSymbol_returns_uint64 _ _ _ _ _ Hfind) as Hoff.
  assert (Hpad : len (padded size value) = size) by (apply len_padded; lia).
  exists (patched (r file) offset (padded size value)).
  assert (Hlen : len (patched (r file) offset (padded size value))
                 = len (r file)).
  { apply length_patched; lia. }
  split; [exact (InjectStringSymbol_success_output _ _ _ _ _ _ _ _
                   Hfind Hfit Hin Hmax Hrun)|].
  split; [exact Hlen|].
  set (out := patched (r file) offset (padded size value)) in *.
  assert (Hfind' : findSymbol (reopened file out) symbol = (offset, size, None)).
  { rewrite findSymbol_reopened. exact Hfind. }
  pose proof (InjectStringSymbol_success_alloc _ _ _ _ _ _ _ _
                Hfind Hfit Hrun) as Halloc.
  destruct (InjectStringSymbol_checked (reopened file out) w2 symbol value2
              value offset size Hfind' Hfit2 Hne) as (_ & _ & Hsame).
  - simpl. lia.
  - simpl. lia.
  - exact Halloc.
  - simpl in Hsame. apply Hsame.
    unfold out. rewrite <- Hpad at 2. apply window_patched; lia.
Qed.

Lemma InjectStringSymbol_chain_witness :
  exists out : list byte,
    out = patched sampleSource 48 (padded 8 (bytesOf "v2")) /\
    len out = len sampleSource /\
    InjectStringSymbol (reopened sampleFile out) emptySink "delta"
      (bytesOf "v3") (bytesOf "v2")
    = (let '(w', c) := copyAndInject out emptySink 48 (padded 8 (bytesOf "v3")) in
       (w', liftIO c)).
Proof.
  destruct (InjectStringSymbol_chain sampleFile emptySink
              (mkWriter (patched sampleSource 48 (padded 8 (bytesOf "v2")))
                 None ErrShortWrite)
              emptySink "delta" (bytesOf "v2") [] (bytesOf "v3") 48 8)
    as (out & Hout & Hlen & Hnext).
  - reflexivity.
  - vm_compute. discriminate.
  - vm_compute. discriminate.
  - discriminate.
  - vm_compute. discriminate.
  - vm_compute. discriminate.
  - vm_compute. reflexivity.
  - exists out. simpl in Hout.
    split; [rewrite <- Hout; reflexivity|]. split; assumption.
Defined.

(** X12.  Injecting what is already there.  When the value is also given as the
    expected prior value, a successful injection writes the source itself:
    the check has established that the symbol already holds the padded
    value, so the output equals the input byte for byte. *)
Theorem InjectStringSymbol_same_value (file : File) (w w' : Writer)
    (symbol : string) (value : list byte) (offset size : Z) :
  findSymbol file symbol = (offset, size, None) ->
  len value + 1 <= size -> value <> [] ->
  offset + size <= len (r file) -> len (r file) <= maxInt64 ->
  InjectStringSymbol file w symbol value value = (w', Returns None) ->
  written w' = written w ++ r file.
Proof.
  intros Hfind Hfit Hne Hin Hmax Hrun.
  pose proof (len_nonneg value) as Hv.
  pose proof (findSymbol_returns_uint64 _ _ _ _ _ Hfind) as Hoff.
  rewrite (InjectStringSymbol_success_output _ _ _ _ _ _ _ _
             Hfind Hfit Hin Hmax Hrun).
  pose proof (InjectStringSymbol_success_alloc _ _ _ _ _ _ _ _
                Hfind Hfit Hrun) as Halloc.
  destruct (InjectStringSymbol_checked file w symbol value value offset size
              Hfind Hfit Hne Hin Hmax Halloc) as (_ & Hdiff & _).
  destruct (decide (window (r file) offset (offset + size)
                    = padded size value)) as [Heq | Hneq].
  - rewrite <- Heq. rewrite patched_self by lia. reflexivity.
  - rewrite (Hdiff Hneq) in Hrun. discriminate.
Qed.

Lemma InjectStringSymbol_same_value_witness :
  written (fst (InjectStringSymbol stampedFile emptySink "delta"
                  (bytesOf "v2") (bytesOf "v2")))
  = r stampedFile.
Proof.
  apply (InjectStringSymbol_same_value stampedFile emptySink _ "delta"
           (bytesOf "v2") 48 8).
  - reflexivity.
  - vm_compute. discriminate.
  - discriminate.
  - vm_compute. discriminate.
  - vm_compute. discriminate.
  - vm_compute. reflexivity.
Defined.

(** ** Offsets beyond int64 *)

Lemma i64_high (z : Z) : 2 ^ 63 <= z < 2 ^ 64 + 2 ^ 63 -> i64 z = z - 2 ^ 64.
Proof.
  intros H. unfold i64.
  replace (z + 2 ^ 63) with (z - 2 ^ 63 + 1 * 2 ^ 64) by lia.
  rewrite Z.mod_add by lia. rewrite Z.mod_small by lia. lia.
Qed.

(** A section reader that starts at a negative offset panics on its first
    read: the slice bound [limit - off] has wrapped around to a negative
    number. *)
Lemma io_Copy_negative_offset (r0 : ReaderAt) (w : Writer) (pos : Z) :
  - 2 ^ 63 <= pos < 0 ->
  io_Copy w (NewSectionReader r0 pos (i64 (maxInt64 - pos))) = (w, Panics).
Proof.
  intros Hpos. assert (Hm : maxInt64 = 2 ^ 63 - 1) by reflexivity.
  unfold NewSectionReader.
  rewrite (i64_high (maxInt64 - pos)) by lia.
  replace (maxInt64 - (maxInt64 - pos - 2 ^ 64)) with (pos + 2 ^ 64) by lia.
  rewrite (i64_high (pos + 2 ^ 64)) by lia.
  replace (pos + 2 ^ 64 - 2 ^ 64) with pos by lia.
  rewrite Z.leb_refl.
  replace (maxInt64 - pos - 2 ^ 64 + pos) with (maxInt64 - 2 ^ 64) by lia.
  replace (i64 (maxInt64 - 2 ^ 64)) with maxInt64 by reflexivity.
  unfold io_Copy. cbn [copyBuffer sr_r].
  unfold SectionReader_Read. cbn [sr_limit sr_off].
  replace (maxInt64 <=? pos) with false by (symmetry; apply Z.leb_gt; lia).
  rewrite (i64_high (maxInt64 - pos)) by lia.
  replace (maxInt64 - pos - 2 ^ 64 <? 32768) with true
    by (symmetry; apply Z.ltb_lt; lia).
  replace (maxInt64 - pos - 2 ^ 64 <? 0) with true
    by (symmetry; apply Z.ltb_lt; lia).
  reflexivity.
Qed.

(** X7.  An offset of 2^63 or more does not fit the [int64] the copy works with:
    with a sink that does not fail, [copyAndInject] panics in the copy of
    the remainder instead of returning an error (unless offset plus buffer
    length wraps past 2^64). *)
Theorem copyAndInject_offset_beyond_int64 (r0 : ReaderAt) (w : Writer)
    (offset : Z) (buf : list byte) :
  room w = None ->
  2 ^ 63 <= offset -> offset + len buf < 2 ^ 64 ->
  len r0 <= maxInt64 ->
  snd (copyAndInject r0 w offset buf) = Panics.
Proof.
  intros Hroom Hoff Hfit Hmax.
  pose proof (len_nonneg buf) as Hbuf.
  assert (Hm : maxInt64 = 2 ^ 63 - 1) by reflexivity.
  unfold copyAndInject.
  rewrite (i64_high offset) by lia.
  assert (Hfirst : NewSectionReader r0 0 (offset - 2 ^ 64)
                   = mkSectionReader r0 0 0 maxInt64).
  { unfold NewSectionReader.
    rewrite (i64_high (maxInt64 - (offset - 2 ^ 64))) by lia.
    replace (0 <=? maxInt64 - (offset - 2 ^ 64) - 2 ^ 64) with false;
      [reflexivity|].
    symmetry. apply Z.leb_gt. lia. }
  rewrite Hfirst, io_Copy_window by lia.
  rewrite WriteAll_unlimited by exact Hroom.
  unfold Write. cbn [room written fault].
  rewrite (i64_small (offset - 2 ^ 64 + len buf)) by lia.
  rewrite io_Copy_negative_offset by lia.
  reflexivity.
Qed.

Lemma copyAndInject_offset_beyond_int64_witness :
  snd (copyAndInject (bytesOf "abcdefgh") emptySink (2 ^ 63) (bytesOf "WXYZ"))
  = Panics.
Proof.
  apply copyAndInject_offset_beyond_int64.
  - reflexivity.
  - lia.
  - vm_compute. reflexivity.
  - vm_compute. discriminate.
Defined.

(** ** More on the fallback chain *)

Section FormatDispatcherMore.
Variable World : Type.
Variables elfSymbolsFromFile machoSymbolsFromFile peSymbolsFromFile
  : Extractor World.
Variables dumpElfSymbols dumpMachoSymbols dumpPESymbols : Dumper World.

Local Abbreviation OpenFile' :=
  (OpenFile World elfSymbolsFromFile machoSymbolsFromFile peSymbolsFromFile).
Local Abbreviation DumpSymbols' :=
  (DumpSymbols World dumpElfSymbols dumpMachoSymbols dumpPESymbols).

Lemma asCantParse_Some (err : option error) (e : error) :
  asCantParse err = Some e -> exists e', err = Some (cantParseError e') /\
                                         e = cantParseError e'.
Proof.
  destruct err as [[]|]; simpl; try discriminate.
  intros H. injection H as <-. eauto.
Qed.

Lemma asCantParse_None (e : error) :
  asCantParse (Some e) = None -> forall e', e <> cantParseError e'.
Proof. destruct e; simpl; intros H e'; discriminate. Qed.

Lemma errOf_attach (r0 : ReaderAt) (res : File + error) :
  errOf (attach r0 res) = errOf res.
Proof. destruct res; reflexivity. Qed.

(** X13.  A wrong-format error comes out of [OpenFile] or [DumpSymbols] only when
    all three readers have declined the input, one after the other, and it is
    then the error of the ELF reader: the wrong-format errors of the Mach-O
    and PE readers are never returned. *)
Theorem wrong_format_means_all_declined (r0 : ReaderAt) (st st' : World)
    (e : error) :
  (OpenFile' r0 st = (inr (cantParseError e), st') ->
   exists st1 e2 st2 e3,
     elfSymbolsFromFile r0 st = (inr (cantParseError e), st1) /\
     machoSymbolsFromFile r0 st1 = (inr (cantParseError e2), st2) /\
     peSymbolsFromFile r0 st2 = (inr (cantParseError e3), st')) /\
  (DumpSymbols' r0 st = (Some (cantParseError e), st') ->
   exists st1 e2 st2 e3,
     dumpElfSymbols r0 st = (Some (cantParseError e), st1) /\
     dumpMachoSymbols r0 st1 = (Some (cantParseError e2), st2) /\
     dumpPESymbols r0 st2 = (Some (cantParseError e3), st')).
Proof.
  split.
  - unfold OpenFile.
    destruct (elfSymbolsFromFile r0 st) as [[f1|e1] st1] eqn:H1.
    { simpl. discriminate. }
    destruct e1; simpl; try discriminate.
    destruct (machoSymbolsFromFile r0 st1) as [[f2|e2] st2] eqn:H2.
    { simpl. discriminate. }
    destruct e2; simpl; try discriminate.
    destruct (peSymbolsFromFile r0 st2) as [[f3|e3] st3] eqn:H3.
    { simpl. discriminate. }
    destruct e3; simpl; try discriminate.
    intros H. injection H as <- <-.
    exists st1, e2, st2, e3. rewrite H2, H3. repeat split; reflexivity.
  - unfold DumpSymbols.
    destruct (dumpElfSymbols r0 st) as [[e1|] st1] eqn:H1; [|discriminate].
    destruct e1; simpl; try discriminate.
    destruct (dumpMachoSymbols r0 st1) as [[e2|] st2] eqn:H2; [|discriminate].
    destruct e2; simpl; try discriminate.
    destruct (dumpPESymbols r0 st2) as [[e3|] st3] eqn:H3; [|discriminate].
    destruct e3; simpl; try discriminate.
    intros H. injection H as <- <-.
    exists st1, e2, st2, e3. rewrite H2, H3. repeat split; reflexivity.
Qed.

(** X14.  The file [OpenFile] returns is the file of the reader that accepted the
    input -- the first one after readers that declined -- with the byte
    source given to [OpenFile] attached, whatever source the reader had put
    there. *)
Theorem OpenFile_attaches_source (r0 : ReaderAt) (st st' : World)
    (file : File) :
  OpenFile' r0 st = (inl file, st') ->
  r file = r0 /\
  exists parsed : File,
    file = mkFile r0 (Symbols parsed) (Sections parsed) /\
    (elfSymbolsFromFile r0 st = (inl parsed, st') \/
     (exists e1 st1,
        elfSymbolsFromFile r0 st = (inr (cantParseError e1), st1) /\
        machoSymbolsFromFile r0 st1 = (inl parsed, st')) \/
     (exists e1 st1 e2 st2,
        elfSymbolsFromFile r0 st = (inr (cantParseError e1), st1) /\
        machoSymbolsFromFile r0 st1 = (inr (cantParseError e2), st2) /\
        peSymbolsFromFile r0 st2 = (inl parsed, st'))).
Proof.
  unfold OpenFile.
  destruct (elfSymbolsFromFile r0 st) as [[f1|e1] st1] eqn:H1.
  { simpl. intros H. injection H as <- <-. split; [reflexivity|].
    exists f1. split; [reflexivity|]. left. reflexivity. }
  destruct e1; simpl; try discriminate.
  destruct (machoSymbolsFromFile r0 st1) as [[f2|e2] st2] eqn:H2.
  { simpl. intros H. injection H as <- <-. split; [reflexivity|].
    exists f2. split; [reflexivity|]. right. left.
    exists e1, st1. rewrite H2. split; reflexivity. }
  destruct e2; simpl; try discriminate.
  destruct (peSymbolsFromFile r0 st2) as [[f3|e3] st3] eqn:H3.
  { simpl. intros H. injection H as <- <-. split; [reflexivity|].
    exists f3. split; [reflexivity|]. right. right.
    exists e1, st1, e2, st2. rewrite H2, H3. repeat split; reflexivity. }
  destruct e3; simpl; discriminate.
Qed.

(** X15.  [DumpSymbols] follows [OpenFile]: when each dumper fails exactly as the
    reader of its format does, [DumpSymbols] returns the error of [OpenFile]
    ([nil] when [OpenFile] succeeds) after running the same readers. *)
Theorem DumpSymbols_follows_OpenFile (r0 : ReaderAt) (st : World) :
  mirrors dumpElfSymbols elfSymbolsFromFile ->
  mirrors dumpMachoSymbols machoSymbolsFromFile ->
  mirrors dumpPESymbols peSymbolsFromFile ->
  DumpSymbols' r0 st
  = (errOf (fst (OpenFile' r0 st)), snd (OpenFile' r0 st)).
Proof.
  intros Helf Hmacho Hpe. unfold DumpSymbols, OpenFile.
  rewrite (Helf r0 st).
  destruct (elfSymbolsFromFile r0 st) as [res1 st1]. cbn [fst snd].
  destruct (asCantParse (errOf res1)) as [elfError|];
    [|cbn [fst snd]; rewrite errOf_attach; reflexivity].
  rewrite (Hmacho r0 st1).
  destruct (machoSymbolsFromFile r0 st1) as [res2 st2]. cbn [fst snd].
  destruct (asCantParse (errOf res2));
    [|cbn [fst snd]; rewrite errOf_attach; reflexivity].
  rewrite (Hpe r0 st2).
  destruct (peSymbolsFromFile r0 st2) as [res3 st3]. cbn [fst snd].
  destruct (asCantParse (errOf res3));
    [reflexivity | cbn [fst snd]; rewrite errOf_attach; reflexivity].
Qed.
End FormatDispatcherMore.

Lemma wrong_format_means_all_declined_witness :
  exists st1 e2 st2 e3,
    loggedReader "elf" (inr notElf) sampleSource []
    = (inr (cantParseError (parseError "bad ELF magic")), st1) /\
    loggedReader "macho" (inr notMachO) sampleSource st1
    = (inr (cantParseError e2), st2) /\
    loggedReader "pe" (inr notPE) sampleSource st2
    = (inr (cantParseError e3), ["elf"; "macho"; "pe"]%string).
Proof.
  destruct (wrong_format_means_all_declined (list string)
              (loggedReader "elf" (inr notElf))
              (loggedReader "macho" (inr notMachO))
              (loggedReader "pe" (inr notPE))
              (loggedDumper "elf" None) (loggedDumper "macho" None)
              (loggedDumper "pe" None)
              sampleSource [] ["elf"; "macho"; "pe"]%string
              (parseError "bad ELF magic")) as [H _].
  apply H. reflexivity.
Defined.

Lemma OpenFile_attaches_source_witness :
  r sampleFile = sampleSource /\
  exists parsed : File,
    sampleFile = mkFile sampleSource (Symbols parsed) (Sections parsed) /\
    (loggedReader "elf" (inr notElf) sampleSource [] = (inl parsed, ["elf"; "macho"]%string) \/
     (exists e1 st1,
        loggedReader "elf" (inr notElf) sampleSource []
        = (inr (cantParseError e1), st1) /\
        loggedReader "macho" (inl parsedFile) sampleSource st1
        = (inl parsed, ["elf"; "macho"]%string)) \/
     (exists e1 st1 e2 st2,
        loggedReader "elf" (inr notElf) sampleSource []
        = (inr (cantParseError e1), st1) /\
        loggedReader "macho" (inl parsedFile) sampleSource st1
        = (inr (cantParseError e2), st2) /\
        loggedReader "pe" (inr notPE) sampleSource st2
        = (inl parsed, ["elf"; "macho"]%string))).
Proof.
  apply (OpenFile_attaches_source (list string)
           (loggedReader "elf" (inr notElf))
           (loggedReader "macho" (inl parsedFile))
           (loggedReader "pe" (inr notPE))
           sampleSource [] ["elf"; "macho"]%string sampleFile).
  reflexivity.
Defined.

Lemma DumpSymbols_follows_OpenFile_witness :
  DumpSymbols (list string)
    (loggedDumper "elf" (Some notElf)) (loggedDumper "macho" None)
    (loggedDumper "pe" (Some notPE)) sampleSource []
  = (None, ["elf"; "macho"]%string).
Proof.
  rewrite (DumpSymbols_follows_OpenFile (list string)
             (loggedReader "elf" (inr notElf))
             (loggedReader "macho" (inl parsedFile))
             (loggedReader "pe" (inr notPE))).
  - reflexivity.
  - intros r0 st. reflexivity.
  - intros r0 st. reflexivity.
  - intros r0 st. reflexivity.
Defined.

(** ** Module names of LLNDK stubs *)

Lemma string_length_append (a b : string) :
  String.length (String.append a b) = (String.length a + String.length b)%nat.
Proof. induction a as [|c a IH]; simpl; [|rewrite IH]; reflexivity. Qed.

Lemma substring_whole (s : string) : substring 0 (String.length s) s = s.
Proof. induction s as [|c s IH]; simpl; [|rewrite IH]; reflexivity. Qed.

Lemma substring_append_left (a b : string) :
  substring 0 (String.length a) (String.append a b) = a.
Proof.
  induction a as [|c a IH]; simpl.
  - destruct b; reflexivity.
  - rewrite IH. reflexivity.
Qed.

Lemma substring_append_right (a b : string) :
  substring (String.length a) (String.length b) (String.append a b) = b.
Proof.
  induction a as [|c a IH]; simpl; [apply substring_whole | exact IH].
Qed.

Lemma TrimSuffix_append (s suffix : string) :
  strings_TrimSuffix (String.append s suffix) suffix = s.
Proof.
  unfold strings_TrimSuffix, strings_HasSuffix.
  rewrite string_length_append.
  replace (String.length s + String.length suffix - String.length suffix)%nat
    with (String.length s) by lia.
  rewrite substring_append_right, String.eqb_refl.
  replace (String.length suffix <=? String.length s + String.length suffix)%nat
    with true by (symmetry; apply Nat.leb_le; lia).
  simpl. apply substring_append_left.
Qed.

(** X16.  The library name is recovered from the module name.  For every name,
    [linkerFlags] on the module called [Name(name)] stores [name] as the
    library name -- also when [name] itself ends in [.llndk], since the
    suffix is taken off once; a module name without the suffix is taken as
    it is. *)
Theorem llndkLibName_of_Name (name : string) :
  llndkLibName (llndkStubDecorator_Name name) = name /\
  (strings_HasSuffix name llndkLibrarySuffix = false ->
   llndkLibName name = name).
Proof.
  split; [apply TrimSuffix_append|].
  intros H. unfold llndkLibName, strings_TrimSuffix. rewrite H. reflexivity.
Qed.

Lemma llndkLibName_of_Name_witness :
  llndkLibName "libc.llndk.llndk" = "libc.llndk"%string /\
  llndkLibName "libc" = "libc"%string.
Proof.
  destruct (llndkLibName_of_Name "libc.llndk") as (H1 & _).
  destruct (llndkLibName_of_Name "libc") as (_ & H2).
  split; [exact H1 | apply H2; reflexivity].
Defined.
